(** * ooni_connect_bluetooth.webserver: BLE link, telemetry fan-out, scanner

    A shallow embedding of [src/ooni_connect_bluetooth/webserver.py].

    The module keeps five globals ([ble_client], [current_data],
    [connected_websockets], [scanning], [discovered_devices]) and talks to
    three outside parties through [await]: the BLE transport (bleak), the
    websockets of the viewers, and the scanner.  The globals are the fields
    of [World]; every awaited call is answered by an oracle and recorded in
    the world's [trace]; exceptions are the [Exn] results of a small
    state-and-exception monad [M].

    The handlers come twice.  First each is given as the module writes it,
    run from its first statement to its return with nothing else in
    between ([notify_data], [connect_ble], ...).  The event loop can run
    another handler whenever one waits in an [await], and nothing in the
    module keeps it from doing so; so [connect_ble] and the loop of
    [notify_data], where this matters, are given a second time, cut at
    their awaits ([connect_ble_begin], [connect_ble_resume],
    [notify_data_begin], [notify_data_resume]).  Resumed with nothing in
    between, the pieces are the whole handlers
    ([connect_ble_run_uninterrupted], [notify_data_run_uninterrupted]). *)

From Stdlib Require Import ZArith Lia Ascii String List.
From Stdlib.Strings Require Import Byte.
From stdpp Require Import base option list gmap sets strings.

(** ** Exceptions and awaited outcomes *)

(** The exception classes the handlers tell apart.  [DecodeError] and
    [WebSocketDisconnect] are subclasses of [Exception]; [PyException]
    stands for any other subclass of [Exception] (with its [str]); a
    [PyBaseException] is one that [except Exception] does not catch
    (a cancellation, for instance). *)
Inductive exn : Type :=
| DecodeError (msg : string)
| WebSocketDisconnect
| PyException (msg : string)
| PyBaseException (msg : string).

Definition is_Exception (e : exn) : bool :=
  match e with
  | PyBaseException _ => false
  | _ => true
  end.

(** [str(e)] *)
Definition str (e : exn) : string :=
  match e with
  | DecodeError m => m
  | WebSocketDisconnect => ""
  | PyException m => m
  | PyBaseException m => m
  end.

(** What an awaited call does: it returns, or it raises. *)
Inductive outcome : Type :=
| Ok
| Raise (e : exn).


(** ** Data *)

(** The enum member held in [packet.temperature_unit]; the code reads only
    its [.value]. *)
Record TemperatureUnit : Type := { value : string }.

(** The attributes of a decoded [PacketNotify] that [notify_data] reads. *)
Record PacketNotify : Type := {
  battery : Z;
  ambient_a : Z;
  ambient_b : Z;
  probe_p1 : Z;
  probe_p2 : Z;
  probe_p1_connected : bool;
  probe_p2_connected : bool;
  eco_mode : bool;
  temperature_unit : TemperatureUnit
}.

(** The dict stored in [current_data] and sent to the websockets: nine
    keys, always all of them. *)
Record TelemetryDict : Type := {
  d_battery : Z;
  d_ambient_a : Z;
  d_ambient_b : Z;
  d_probe_p1 : Z;
  d_probe_p2 : Z;
  d_probe_p1_connected : bool;
  d_probe_p2_connected : bool;
  d_eco_mode : bool;
  d_temperature_unit : string
}.

(** [BLEDevice] and [AdvertisementData], as far as [detection_callback]
    looks at them. *)
Record BLEDevice : Type := { dev_address : string; dev_name : option string }.
Record AdvertisementData : Type := { rssi : Z }.

(** One entry of [discovered_devices]. *)
Record DeviceEntry : Type := {
  e_address : string;
  e_name : string;
  e_rssi : Z
}.

(** The JSON bodies the endpoints return. *)
Inductive Response : Type :=
| ConnectSuccess (address : string)
| ScanSuccess (devices : list DeviceEntry)
| Failure (error : string).

(** ** The awaited calls *)

(** A [BleakClient] object is named by the order of its creation; a
    websocket by a number the server gives it. *)
Inductive Event : Type :=
| EvNewClient (address : string) (timeout : Z)
| EvConnect (c : nat) (o : outcome)
| EvStartNotify (c : nat) (o : outcome)
| EvStopNotify (c : nat) (o : outcome)
| EvDisconnect (c : nat) (o : outcome)
| EvLinkLost (c : nat)
| EvAccept (ws : nat) (o : outcome)
| EvSendJson (ws : nat) (payload : option TelemetryDict) (o : outcome)
| EvReceiveText (ws : nat) (o : outcome)
| EvScannerStart (o : outcome)
| EvSleep (seconds : Z) (o : outcome)
| EvScannerStop (o : outcome).

(** ** The transport's side of a client object

    What bleak knows about each client object is a function of the calls
    made on it (and of the links the radio lost): a successful [connect]
    brings the link up, a successful [start_notify] subscribes, a successful
    [stop_notify] unsubscribes, a successful [disconnect] or a lost link
    ends both; a call that raises changes nothing. *)
Record BleakClient : Type := {
  address : string;
  timeout : Z;
  is_connected : bool;
  notifying : bool
}.

Definition set_is_connected (b : bool) (cl : BleakClient) : BleakClient :=
  {| address := address cl; timeout := timeout cl;
     is_connected := b; notifying := notifying cl |}.

Definition set_notifying (b : bool) (cl : BleakClient) : BleakClient :=
  {| address := address cl; timeout := timeout cl;
     is_connected := is_connected cl; notifying := b |}.

Definition link_down (cl : BleakClient) : BleakClient :=
  {| address := address cl; timeout := timeout cl;
     is_connected := false; notifying := false |}.

Definition transport_step (e : Event) (t : list BleakClient) : list BleakClient :=
  match e with
  | EvNewClient a tmo =>
      t ++ [{| address := a; timeout := tmo;
               is_connected := false; notifying := false |}]
  | EvConnect c Ok => alter (set_is_connected true) c t
  | EvStartNotify c Ok => alter (set_notifying true) c t
  | EvStopNotify c Ok => alter (set_notifying false) c t
  | EvDisconnect c Ok => alter link_down c t
  | EvLinkLost c => alter link_down c t
  | _ => t
  end.

(** The trace is kept most recent call first. *)
Definition transport_of (tr : list Event) : list BleakClient :=
  foldr transport_step [] tr.

(** A subscription is live when the client is connected and notifying. *)
Definition live (cl : BleakClient) : bool := is_connected cl && notifying cl.

Definition live_subscriptions (t : list BleakClient) : list BleakClient :=
  filter (fun cl => live cl = true) t.

(** ** The world: the module's globals and what was done to the outside *)

Record World : Type := mkWorld {
  ble_client : option nat;
  current_data : option TelemetryDict;
  connected_websockets : list nat;
  scanning : bool;
  discovered_devices : list DeviceEntry;
  trace : list Event;      (* awaited calls, most recent first *)
  stdout : list string;    (* printed lines, most recent first *)
  tick : nat               (* number of awaited calls so far *)
}.

(** The module as imported: [ble_client = None], [current_data = None],
    [connected_websockets = []], [scanning = False],
    [discovered_devices = []]. *)
Definition initial_world : World :=
  {| ble_client := None; current_data := None; connected_websockets := [];
     scanning := false; discovered_devices := []; trace := []; stdout := [];
     tick := 0 |}.

Definition set_ble_client (v : option nat) (w : World) : World :=
  mkWorld v (current_data w) (connected_websockets w) (scanning w)
          (discovered_devices w) (trace w) (stdout w) (tick w).
Definition set_current_data (v : option TelemetryDict) (w : World) : World :=
  mkWorld (ble_client w) v (connected_websockets w) (scanning w)
          (discovered_devices w) (trace w) (stdout w) (tick w).
Definition set_connected_websockets (v : list nat) (w : World) : World :=
  mkWorld (ble_client w) (current_data w) v (scanning w)
          (discovered_devices w) (trace w) (stdout w) (tick w).
Definition set_scanning (v : bool) (w : World) : World :=
  mkWorld (ble_client w) (current_data w) (connected_websockets w) v
          (discovered_devices w) (trace w) (stdout w) (tick w).
Definition set_discovered_devices (v : list DeviceEntry) (w : World) : World :=
  mkWorld (ble_client w) (current_data w) (connected_websockets w) (scanning w)
          v (trace w) (stdout w) (tick w).
Definition set_trace (v : list Event) (w : World) : World :=
  mkWorld (ble_client w) (current_data w) (connected_websockets w) (scanning w)
          (discovered_devices w) v (stdout w) (tick w).
Definition set_stdout (v : list string) (w : World) : World :=
  mkWorld (ble_client w) (current_data w) (connected_websockets w) (scanning w)
          (discovered_devices w) (trace w) v (tick w).
Definition set_tick (v : nat) (w : World) : World :=
  mkWorld (ble_client w) (current_data w) (connected_websockets w) (scanning w)
          (discovered_devices w) (trace w) (stdout w) v.

(** ** The monad of the handlers *)

(** A coroutine returns a value, raises, or is still suspended in an
    [await] when the model stops looking ([Suspended]: the keep-alive loop
    of a websocket whose peer stays). *)
Inductive Res (A : Type) : Type :=
| Val (a : A)
| Exn (e : exn)
| Suspended.
Arguments Val {A} a.
Arguments Exn {A} e.
Arguments Suspended {A}.

Definition M (A : Type) : Type := World -> Res A * World.

Definition ret {A} (a : A) : M A := fun w => (Val a, w).

Definition bind {A B} (m : M A) (k : A -> M B) : M B := fun w =>
  match m w with
  | (Val a, w') => k a w'
  | (Exn e, w') => (Exn e, w')
  | (Suspended, w') => (Suspended, w')
  end.

Definition raise {A} (e : exn) : M A := fun w => (Exn e, w).

Declare Scope py_scope.
Delimit Scope py_scope with py.
Notation "x <- m ;; k" := (bind m (fun x => k))
  (at level 100, m at next level, right associativity) : py_scope.
Notation "m ;; k" := (bind m (fun _ => k))
  (at level 100, right associativity) : py_scope.

(** [try: body / except ...: handler].  [handlers e] is the body of the
    first [except] clause that matches [e], if any; an exception raised by a
    handler is not caught by this [try]. *)
Definition try_except {A} (body : M A) (handlers : exn -> option (M A)) : M A :=
  fun w =>
    match body w with
    | (Exn e, w') =>
        match handlers e with
        | Some h => h w'
        | None => (Exn e, w')
        end
    | r => r
    end.

Definition gets {A} (f : World -> A) : M A := fun w => (Val (f w), w).
Definition modify (f : World -> World) : M unit := fun w => (Val tt, f w).

(** [print(line)] *)
Definition print (line : string) : M unit :=
  modify (fun w => set_stdout (line :: stdout w) w).

(** [for x in xs: body x] *)
Fixpoint for_each {A} (xs : list A) (body : A -> M unit) : M unit :=
  match xs with
  | [] => ret tt
  | x :: xs' => (body x ;; for_each xs' body)%py
  end.

(** [xs.remove(x)]: drops the first element equal to [x]; [None] is the
    [ValueError] of a missing [x]. *)
Fixpoint remove_first (x : nat) (xs : list nat) : option (list nat) :=
  match xs with
  | [] => None
  | y :: ys =>
      if decide (y = x) then Some ys
      else match remove_first x ys with
           | Some ys' => Some (y :: ys')
           | None => None
           end
  end.

(** [x in xs] *)
Definition contains (x : nat) (xs : list nat) : bool := bool_decide (x ∈ xs).

(** [data.hex()]: two lower-case digits a byte. *)
Definition hex_digit (n : N) : ascii :=
  match String.get (N.to_nat n) "0123456789abcdef" with
  | Some c => c
  | None => "0"%char
  end.

Fixpoint hex (data : list byte) : string :=
  match data with
  | [] => ""
  | b :: rest =>
      String (hex_digit (N.div (Byte.to_N b) 16))
        (String (hex_digit (N.modulo (Byte.to_N b) 16)) (hex rest))
  end.

(** [x or "Unknown"] on an optional string: [None] and the empty string are
    falsy. *)
Definition or_unknown (name : option string) : string :=
  match name with
  | Some EmptyString => "Unknown"
  | Some n => n
  | None => "Unknown"
  end.

Local Open Scope py_scope.

Section Webserver.

(** The outside world: the answer to the [n]-th awaited call. *)
Variable oracle : nat -> outcome.

(** [NotifyCharacteristic.decode] and [PacketNotify.decode] live in the
    [services] and [packets] modules; [notify_data] only calls them.  Each
    returns its result or raises. *)
Variable NotifyCharacteristic_decode : list byte -> exn + list byte.
Variable PacketNotify_decode : list byte -> exn + PacketNotify.

(** ** Primitives *)

(** [await call]: the oracle answers, the call is recorded. *)
Definition await (call : outcome -> Event) : M unit := fun w =>
  let o := oracle (tick w) in
  let w' := set_tick (S (tick w)) (set_trace (call o :: trace w) w) in
  match o with
  | Ok => (Val tt, w')
  | Raise e => (Exn e, w')
  end.

(** A call into a function that returns or raises. *)
Definition call {A} (r : exn + A) : M A :=
  match r with
  | inl e => raise e
  | inr a => ret a
  end.

(** [BleakClient(address, timeout=...)]: a new client object. *)
Definition new_client (addr : string) (tmo : Z) : M nat := fun w =>
  (Val (length (transport_of (trace w))),
   set_trace (EvNewClient addr tmo :: trace w) w).

(** [client.is_connected] *)
Definition client_is_connected (c : nat) : M bool :=
  gets (fun w => match transport_of (trace w) !! c with
                 | Some cl => is_connected cl
                 | None => false
                 end).

(** [connected_websockets.remove(ws)] *)
Definition websockets_remove (ws : nat) : M unit := fun w =>
  match remove_first ws (connected_websockets w) with
  | Some rest => (Val tt, set_connected_websockets rest w)
  | None => (Exn (PyException "list.remove(x): x not in list"), w)
  end.

(** [await ws.send_json(current_data)]: the global is read when the call is
    made. *)
Definition send_current_data (ws : nat) : M unit :=
  payload <- gets current_data ;;
  await (EvSendJson ws payload).

(** ** notify_data (lines 29-55)

    The callback from its first statement to its return.  While it waits
    in a send (line 50) other handlers can run: [notify_data_begin] and
    [notify_data_resume] below give it one send at a time. *)

Definition telemetry_of (packet : PacketNotify) : TelemetryDict :=
  {| d_battery := battery packet;
     d_ambient_a := ambient_a packet;
     d_ambient_b := ambient_b packet;
     d_probe_p1 := probe_p1 packet;
     d_probe_p2 := probe_p2 packet;
     d_probe_p1_connected := probe_p1_connected packet;
     d_probe_p2_connected := probe_p2_connected packet;
     d_eco_mode := eco_mode packet;
     d_temperature_unit := value (temperature_unit packet) |}.

Definition notify_data (data : list byte) : M unit :=
  try_except
    (packet_data <- call (NotifyCharacteristic_decode data) ;;
     packet <- call (PacketNotify_decode packet_data) ;;
     modify (set_current_data (Some (telemetry_of packet))) ;;
     snapshot <- gets connected_websockets ;;
     for_each snapshot (fun ws =>
       try_except (send_current_data ws)
                  (fun _ => Some (websockets_remove ws))))
    (fun exc =>
       match exc with
       | DecodeError _ =>
           Some (print ("Failed to decode: " +:+ hex data +:+
                        " with error " +:+ str exc))
       | _ => None
       end).

(** ** connect_ble (lines 58-72) and connect_endpoint (lines 530-537)

    The call from its first statement to its return: [ble_client] names
    the same object at lines 63-65, and the new one at lines 68-70.  While
    the call waits (lines 64, 65, 69, 70) other handlers can run and assign
    [ble_client]: [connect_ble_begin] and [connect_ble_resume] below give
    the call one await at a time, the global looked up anew at each. *)

Definition connect_ble (addr : string) : M bool :=
  held <- gets ble_client ;;
  match held with
  | Some c =>
      up <- client_is_connected c ;;
      if up then
        await (EvStopNotify c) ;;
        await (EvDisconnect c)
      else ret tt
  | None => ret tt
  end ;;
  c <- new_client addr 20 ;;
  modify (set_ble_client (Some c)) ;;
  await (EvConnect c) ;;
  await (EvStartNotify c) ;;
  ret true.

Definition connect_endpoint (addr : string) : M Response :=
  try_except
    (connect_ble addr ;;
     ret (ConnectSuccess addr))
    (fun e => if is_Exception e then Some (ret (Failure (str e))) else None).

(** ** shutdown_event (lines 563-569) *)

Definition shutdown_event : M unit :=
  held <- gets ble_client ;;
  match held with
  | Some c =>
      up <- client_is_connected c ;;
      if up then
        await (EvStopNotify c) ;;
        await (EvDisconnect c)
      else ret tt
  | None => ret tt
  end.

(** ** scan_devices (lines 496-527) *)

(** [found_addresses] is a local of the enclosing call; the callback
    returns its new value. *)
Definition detection_callback (found_addresses : gset string)
    (device : BLEDevice) (advertisement : AdvertisementData) : M (gset string) :=
  if bool_decide (dev_address device ∉ found_addresses)
     && bool_decide (dev_name device = Some "Ooni_DT_Hub")
  then
    modify (fun w => set_discovered_devices
                       (discovered_devices w ++
                        [{| e_address := dev_address device;
                            e_name := or_unknown (dev_name device);
                            e_rssi := rssi advertisement |}]) w) ;;
    ret ({[ dev_address device ]} ∪ found_addresses)
  else ret found_addresses.

(** The scanner calls the callback once for each advertisement it hears
    while it runs, in the order it hears them. *)
Fixpoint scanner_run (found_addresses : gset string)
    (heard : list (BLEDevice * AdvertisementData)) : M (gset string) :=
  match heard with
  | [] => ret found_addresses
  | (device, advertisement) :: rest =>
      found <- detection_callback found_addresses device advertisement ;;
      scanner_run found rest
  end.

Definition scan_devices (heard : list (BLEDevice * AdvertisementData))
    : M Response :=
  busy <- gets scanning ;;
  if busy then ret (Failure "Scan already in progress")
  else
    modify (set_scanning true) ;;
    modify (set_discovered_devices []) ;;
    try_except
      (await EvScannerStart ;;
       scanner_run ∅ heard ;;
       await (EvSleep 5) ;;
       await EvScannerStop ;;
       modify (set_scanning false) ;;
       devices <- gets discovered_devices ;;
       ret (ScanSuccess devices))
      (fun e =>
         if is_Exception e then
           Some (modify (set_scanning false) ;;
                 ret (Failure (str e)))
         else None).

(** ** websocket_endpoint (lines 540-560) *)

(** [if websocket in connected_websockets:
        connected_websockets.remove(websocket)] *)
Definition discard_websocket (websocket : nat) : M unit :=
  present <- gets (fun w => contains websocket (connected_websockets w)) ;;
  if present then websockets_remove websocket else ret tt.

(** [while True: await websocket.receive_text()], looked at for [fuel]
    received texts. *)
Fixpoint receive_forever (fuel : nat) (websocket : nat) : M unit :=
  match fuel with
  | O => fun w => (Suspended, w)
  | S fuel' =>
      await (EvReceiveText websocket) ;;
      receive_forever fuel' websocket
  end.

(** Lines 550-560: the keep-alive loop inside its [try]. *)
Definition keep_alive (fuel : nat) (websocket : nat) : M unit :=
  try_except (receive_forever fuel websocket)
    (fun e =>
       match e with
       | WebSocketDisconnect => Some (discard_websocket websocket)
       | _ =>
           if is_Exception e then
             Some (print ("WebSocket error: " +:+ str e) ;;
                   discard_websocket websocket)
           else None
       end).

Definition websocket_endpoint (fuel : nat) (websocket : nat) : M unit :=
  await (EvAccept websocket) ;;
  modify (fun w => set_connected_websockets
                     (connected_websockets w ++ [websocket]) w) ;;
  cached <- gets current_data ;;
  match cached with
  | Some _ => send_current_data websocket
  | None => ret tt
  end ;;
  keep_alive fuel websocket.


(** ** Reading the scanner

    [GET /scan]: the route takes no parameter, so a duration asked for by
    the caller does not reach [scan_devices]. *)
Definition RequestScan (duration : Z)
    (heard : list (BLEDevice * AdvertisementData)) : M Response :=
  scan_devices heard.

(** The calls of a scan whose window lasts [seconds]: the session is
    opened, [seconds] pass, the session is closed. *)
Definition scan_window (seconds : Z) (w w' : World) : Prop :=
  trace w' = EvScannerStop Ok :: EvSleep seconds Ok :: EvScannerStart Ok :: trace w.

(** The entry the callback appends for an advertisement. *)
Definition entry_of (ad : BLEDevice * AdvertisementData) : DeviceEntry :=
  {| e_address := dev_address ad.1;
     e_name := or_unknown (dev_name ad.1);
     e_rssi := rssi ad.2 |}.

Definition named_hub (ad : BLEDevice * AdvertisementData) : Prop :=
  dev_name ad.1 = Some "Ooni_DT_Hub".

(** What [scanner_run] appends to [discovered_devices]. *)
Fixpoint collect (found_addresses : gset string)
    (heard : list (BLEDevice * AdvertisementData)) : list DeviceEntry :=
  match heard with
  | [] => []
  | ad :: rest =>
      if bool_decide (dev_address ad.1 ∉ found_addresses)
         && bool_decide (dev_name ad.1 = Some "Ooni_DT_Hub")
      then entry_of ad :: collect ({[ dev_address ad.1 ]} ∪ found_addresses) rest
      else collect found_addresses rest
  end.

(** ** Reading the hub *)

(** The two decoding stages of [notify_data], for the data alone. *)
Definition decoded (data : list byte) : exn + TelemetryDict :=
  match NotifyCharacteristic_decode data with
  | inl e => inl e
  | inr packet_data =>
      match PacketNotify_decode packet_data with
      | inl e => inl e
      | inr packet => inr (telemetry_of packet)
      end
  end.

(** The transport calls the callback once for each notification, one after
    the other; a callback that raises does not stop the next one. *)
Definition run_notifications (datas : list (list byte)) (w : World) : World :=
  foldl (λ w data, (notify_data data w).2) w datas.

(** The record of the last notification of [datas] that decodes. *)
Definition last_decoded (datas : list (list byte)) : option TelemetryDict :=
  foldl (λ cached data,
           match decoded data with
           | inr d => Some d
           | inl _ => cached
           end) None datas.

(** What was sent to [ws], oldest first. *)
Fixpoint sends_to (ws : nat) (tr : list Event) : list (option TelemetryDict) :=
  match tr with
  | [] => []
  | EvSendJson ws' payload _ :: older =>
      if decide (ws' = ws) then sends_to ws older ++ [payload]
      else sends_to ws older
  | _ :: older => sends_to ws older
  end.

(** The calls that do not concern the BLE transport. *)
Definition silent (e : Event) : bool :=
  match e with
  | EvAccept _ _ | EvSendJson _ _ _ | EvReceiveText _ _
  | EvScannerStart _ | EvSleep _ _ | EvScannerStop _ => true
  | _ => false
  end.

(** The loop body of [notify_data] (lines 49-52) and the loop with its
    snapshot (lines 48-52). *)
Definition send_or_prune (ws : nat) : M unit :=
  try_except (send_current_data ws) (λ _, Some (websockets_remove ws)).

Definition broadcast : M unit :=
  snapshot <- gets connected_websockets ;;
  for_each snapshot send_or_prune.

(** The subscribers of [xs] whose send, the [t]-th awaited call onwards,
    returns; and the sends themselves, most recent first. *)
Fixpoint survivors (t : nat) (xs : list nat) : list nat :=
  match xs with
  | [] => []
  | x :: xs' =>
      match oracle t with
      | Ok => x :: survivors (S t) xs'
      | Raise _ => survivors (S t) xs'
      end
  end.

Fixpoint send_events (t : nat) (payload : option TelemetryDict)
    (xs : list nat) : list Event :=
  match xs with
  | [] => []
  | x :: xs' => send_events (S t) payload xs' ++ [EvSendJson x payload (oracle t)]
  end.

(** ** Relations between the world before and after *)

(** The trace has grown by calls that all satisfy [P]. *)
Definition grows (P : Event → Prop) : relation World := λ w w',
  ∃ new, trace w' = new ++ trace w ∧ Forall P new.

(** Nothing was asked of the BLE transport and the held client is the
    same. *)
Definition quiet : relation World := λ w w',
  ble_client w' = ble_client w ∧ grows (λ e, silent e = true) w w'.

(** With the record [d] cached: it stays cached, the registry only
    shrinks, and all that happens is that [d] is sent to websockets of
    [subscribers]. *)
Definition broadcasting (d : TelemetryDict) (subscribers : list nat)
    : relation World := λ w w',
  current_data w = Some d →
  current_data w' = Some d ∧
  connected_websockets w' ⊆ connected_websockets w ∧
  grows (λ e, ∃ ws o, e = EvSendJson ws (Some d) o ∧ ws ∈ subscribers) w w'.

(** [preserves R m]: whatever [m] does (return, raise, stay suspended), the
    world it leaves is related by [R] to the one it found. *)
Definition preserves (R : relation World) {A} (m : M A) : Prop :=
  ∀ w, R w (m w).2.

(** Equal but for what was printed. *)
Definition agree : relation World := λ w v,
  ble_client w = ble_client v ∧ current_data w = current_data v ∧
  connected_websockets w = connected_websockets v ∧
  scanning w = scanning v ∧ discovered_devices w = discovered_devices v ∧
  trace w = trace v ∧ tick w = tick v.

(** A computation that does not look at what was printed. *)
Definition blind {A} (m : M A) : Prop :=
  ∀ w v, agree w v → (m w).1 = (m v).1 ∧ agree (m w).2 (m v).2.

(** ** Reading the connection manager *)

(** The two halves of [connect_ble]: lines 63-65 (the same statements as
    [shutdown_event]) and lines 68-72. *)
Definition teardown : M unit := shutdown_event.

Definition open_link (addr : string) : M bool :=
  c <- new_client addr 20 ;;
  modify (set_ble_client (Some c)) ;;
  await (EvConnect c) ;;
  await (EvStartNotify c) ;;
  ret true.

(** [client.is_connected] as the world has it. *)
Definition link_is_up (c : nat) (w : World) : bool :=
  match transport_of (trace w) !! c with
  | Some cl => is_connected cl
  | None => false
  end.

(** The world after an awaited call that the oracle answered with [o]. *)
Definition after_call (e : Event) (w : World) : World :=
  set_tick (S (tick w)) (set_trace (e :: trace w) w).




(** ** One subscription at a time *)

Definition at_most_one_live (t : list BleakClient) : Prop :=
  length (live_subscriptions t) ≤ 1.

(** [P] held of the transport after every call so far. *)
Definition always (P : list BleakClient → Prop) (tr : list Event) : Prop :=
  ∀ past, past `suffix_of` tr → P (transport_of past).

(** Only the client [held] may have a live subscription; nobody has. *)
Definition only_held_live (held : option nat) (t : list BleakClient) : Prop :=
  ∀ i cl, t !! i = Some cl → live cl = true → held = Some i.

Definition nobody_live (t : list BleakClient) : Prop :=
  ∀ i cl, t !! i = Some cl → live cl = false.

(** The invariant, on a held client and a trace, and when nobody is
    live. *)
Definition held_inv (held : option nat) (tr : list Event) : Prop :=
  always at_most_one_live tr ∧ only_held_live held (transport_of tr).

Definition idle_inv (tr : list Event) : Prop :=
  always at_most_one_live tr ∧ nobody_live (transport_of tr).

Definition link_invariant (w : World) : Prop :=
  held_inv (ble_client w) (trace w).

(** The calls after which no subscription is live that was not before. *)
Definition shrinking (e : Event) : bool :=
  match e with
  | EvNewClient _ _ | EvConnect _ Ok | EvStartNotify _ Ok => false
  | _ => true
  end.

(** The server with its requests served one after another: a request is
    served to its end or, for a websocket session, to the suspension of its
    keep-alive loop, before anything else runs; a suspended session goes
    on; the transport calls back with a notification; the radio loses a
    link.  Nothing in the module makes the event loop serve requests this
    way: a handler waiting in an [await] lets other handlers run, which is
    the subject of the next section. *)
Inductive step : World → World → Prop :=
| step_connect addr w : step w (connect_endpoint addr w).2
| step_shutdown w : step w (shutdown_event w).2
| step_notify data w : step w (notify_data data w).2
| step_scan heard w : step w (scan_devices heard w).2
| step_websocket fuel ws w : step w (websocket_endpoint fuel ws w).2
| step_keep_alive fuel ws w : step w (keep_alive fuel ws w).2
| step_link_lost c w : step w (set_trace (EvLinkLost c :: trace w) w).

(** ** The handlers between their awaits

    The definitions so far run a handler from its first statement to its
    return.  While a handler waits in an [await] the event loop runs other
    handlers.  What follows gives [connect_ble] and the loop of
    [notify_data] one suspension at a time: the statements up to the next
    awaited call, which read the module's globals as they are when they
    run, and the call the handler then waits in.  An awaited call is
    recorded, and has its effect on the transport, when it completes. *)

(** The awaited call [connect_ble] waits in, on the client object that
    [ble_client] named when the call was made (lines 64, 65, 69, 70). *)
Inductive Pending : Type :=
| InStopNotify (c : nat)
| InDisconnect (c : nat)
| InConnect (c : nat)
| InStartNotify (c : nat).

Definition pending_call (p : Pending) (o : outcome) : Event :=
  match p with
  | InStopNotify c => EvStopNotify c o
  | InDisconnect c => EvDisconnect c o
  | InConnect c => EvConnect c o
  | InStartNotify c => EvStartNotify c o
  end.

(** [await ble_client.attr(...)], up to the call: the global is looked up
    when the statement runs. *)
Definition call_on_ble_client (attr : string) (p : nat → Pending) (w : World)
    : (Pending + Res bool) * World :=
  match ble_client w with
  | Some c => (inl (p c), w)
  | None =>
      (inr (Exn (PyException
                   ("'NoneType' object has no attribute '" +:+ attr +:+ "'"))),
       w)
  end.

(** Lines 68-69, up to the call of [connect]. *)
Definition connect_ble_open (addr : string) (w : World)
    : (Pending + Res bool) * World :=
  match (c <- new_client addr 20 ;; modify (set_ble_client (Some c))) w with
  | (_, w') => call_on_ble_client "connect" InConnect w'
  end.

(** Lines 63-64, up to the first awaited call. *)
Definition connect_ble_begin (addr : string) (w : World)
    : (Pending + Res bool) * World :=
  match ble_client w with
  | Some c =>
      if link_is_up c w then call_on_ble_client "stop_notify" InStopNotify w
      else connect_ble_open addr w
  | None => connect_ble_open addr w
  end.

(** The awaited call completes as the oracle says, and the handler goes on
    to its next awaited call or to its end. *)
Definition connect_ble_resume (addr : string) (p : Pending) (w : World)
    : (Pending + Res bool) * World :=
  let o := oracle (tick w) in
  let w' := after_call (pending_call p o) w in
  match o with
  | Raise e => (inr (Exn e), w')
  | Ok =>
      match p with
      | InStopNotify _ => call_on_ble_client "disconnect" InDisconnect w'
      | InDisconnect _ => connect_ble_open addr w'
      | InConnect _ => call_on_ble_client "start_notify" InStartNotify w'
      | InStartNotify _ => (inr (Val true), w')
      end
  end.

(** The handler resumed again and again with nothing else in between. *)
Fixpoint connect_ble_run (fuel : nat) (addr : string)
    (s : (Pending + Res bool) * World) : Res bool * World :=
  match fuel with
  | O => match s.1 with
         | inr r => (r, s.2)
         | inl _ => (Suspended, s.2)
         end
  | S fuel' =>
      match s.1 with
      | inr r => (r, s.2)
      | inl p => connect_ble_run fuel' addr (connect_ble_resume addr p s.2)
      end
  end.

(** Several calls of [connect_ble] in flight on one server: for each the
    address it was given and where it stands.  A turn of the event loop
    starts a new call or resumes a waiting one. *)
Record ConnectCall : Type :=
  { requested : string; stands : Pending + Res bool }.

Inductive Turn : Type :=
| Arrives (addr : string)
| Resumes (i : nat).

Definition turn (t : Turn) (s : list ConnectCall * World)
    : list ConnectCall * World :=
  match t with
  | Arrives addr =>
      let r := connect_ble_begin addr s.2 in
      (s.1 ++ [{| requested := addr; stands := r.1 |}], r.2)
  | Resumes i =>
      match s.1 !! i with
      | Some {| requested := addr; stands := inl p |} =>
          let r := connect_ble_resume addr p s.2 in
          (<[i := {| requested := addr; stands := r.1 |}]> s.1, r.2)
      | _ => s
      end
  end.

Definition overlapped (turns : list Turn) (w : World)
    : list ConnectCall * World :=
  foldl (λ s t, turn t s) ([], w) turns.

(** The turns of connects that are served one after another: each call
    arrives and is resumed to its end (it has four awaits at most) before
    the next arrives.  [i] is the number of calls already in the pool. *)
Fixpoint one_after_another_from (i : nat) (addrs : list string) : list Turn :=
  match addrs with
  | [] => []
  | addr :: rest =>
      Arrives addr :: replicate 4 (Resumes i)
      ++ one_after_another_from (S i) rest
  end.

Definition one_after_another (addrs : list string) : list Turn :=
  one_after_another_from 0 addrs.

(** The send [notify_data] waits in (line 50): the websocket, the record
    given to [send_json] when the call was made, and the rest of the
    snapshot taken at line 48. *)
Record Sending : Type :=
  { send_to : nat; sent : option TelemetryDict; still_to_send : list nat }.

(** An exception that reaches the [try] of line 31: the clause of line 54
    takes a [DecodeError], anything else leaves the callback. *)
Definition notify_data_raised (data : list byte) (exc : exn) (w : World)
    : (Sending + Res unit) * World :=
  match exc with
  | DecodeError _ =>
      let r := print ("Failed to decode: " +:+ hex data +:+
                      " with error " +:+ str exc) w in
      (inr r.1, r.2)
  | _ => (inr (Exn exc), w)
  end.

(** The loop of line 48 at the head of what is left of its snapshot. *)
Definition notify_data_next (snapshot : list nat) (w : World)
    : (Sending + Res unit) * World :=
  match snapshot with
  | [] => (inr (Val tt), w)
  | ws :: rest =>
      (inl {| send_to := ws; sent := current_data w; still_to_send := rest |},
       w)
  end.

(** Lines 31-50, up to the first send. *)
Definition notify_data_begin (data : list byte) (w : World)
    : (Sending + Res unit) * World :=
  match NotifyCharacteristic_decode data with
  | inl exc => notify_data_raised data exc w
  | inr packet_data =>
      match PacketNotify_decode packet_data with
      | inl exc => notify_data_raised data exc w
      | inr packet =>
          let w' := set_current_data (Some (telemetry_of packet)) w in
          notify_data_next (connected_websockets w') w'
      end
  end.

(** The send completes as the oracle says; a send that raised is followed
    by line 52, on the registry as it is by then. *)
Definition notify_data_resume (data : list byte) (s : Sending) (w : World)
    : (Sending + Res unit) * World :=
  let o := oracle (tick w) in
  let w' := after_call (EvSendJson (send_to s) (sent s) o) w in
  match o with
  | Ok => notify_data_next (still_to_send s) w'
  | Raise _ =>
      match websockets_remove (send_to s) w' with
      | (Exn exc, w'') => notify_data_raised data exc w''
      | (_, w'') => notify_data_next (still_to_send s) w''
      end
  end.

(** The callback resumed again and again with nothing else in between. *)
Fixpoint notify_data_run (fuel : nat) (data : list byte)
    (s : (Sending + Res unit) * World) : Res unit * World :=
  match fuel with
  | O => match s.1 with
         | inr r => (r, s.2)
         | inl _ => (Suspended, s.2)
         end
  | S fuel' =>
      match s.1 with
      | inr r => (r, s.2)
      | inl p => notify_data_run fuel' data (notify_data_resume data p s.2)
      end
  end.

(** ** Sample inputs *)

(** Oracles: every call returns; every call but the [n]-th returns. *)
Definition all_ok : nat → outcome := λ _, Ok.

Definition fails_at (n : nat) (e : exn) : nat → outcome :=
  λ t, if Nat.eqb t n then Raise e else Ok.

(** A session whose websocket is refused a send (call 1) and then
    disconnects (call 2). *)
Definition closing_session : nat → outcome :=
  λ t, match t with
       | 1 => Raise (PyException "send on a closed websocket")
       | 2 => Raise WebSocketDisconnect
       | _ => Ok
       end.

(** Decoders to run the examples with: an envelope of one marker byte, a
    payload whose first byte is the battery level. *)
Definition sample_envelope (data : list byte) : exn + list byte :=
  match data with
  | x02 :: payload => inr payload
  | _ => inl (DecodeError "unexpected envelope")
  end.

Definition sample_packet (payload : list byte) : exn + PacketNotify :=
  match payload with
  | level :: _ =>
      inr {| battery := Z.of_N (Byte.to_N level);
             ambient_a := 20; ambient_b := 21; probe_p1 := 22; probe_p2 := 0;
             probe_p1_connected := true; probe_p2_connected := false;
             eco_mode := false; temperature_unit := {| value := "F" |} |}
  | [] => inl (DecodeError "empty payload")
  end.

Definition sample_record (level : Z) : TelemetryDict :=
  {| d_battery := level;
     d_ambient_a := 20; d_ambient_b := 21; d_probe_p1 := 22; d_probe_p2 := 0;
     d_probe_p1_connected := true; d_probe_p2_connected := false;
     d_eco_mode := false; d_temperature_unit := "F" |}.

(** The world after a first connect to ["AA:AA"] went through. *)
Definition connected_world : World :=
  {| ble_client := Some 0; current_data := None; connected_websockets := [];
     scanning := false; discovered_devices := [];
     trace := [EvStartNotify 0 Ok; EvConnect 0 Ok; EvNewClient "AA:AA" 20];
     stdout := []; tick := 2 |}.

(** A world with three viewers attached. *)
Definition three_viewers : World :=
  set_connected_websockets [7; 8; 9] initial_world.

(** A world in which websocket 7 was accepted (call 0), then refused a
    broadcast (call 1) and pruned, while its session is still suspended. *)
Definition pruned_world : World :=
  {| ble_client := None; current_data := Some (sample_record 100);
     connected_websockets := [];
     scanning := false; discovered_devices := [];
     trace := [EvSendJson 7 (Some (sample_record 100))
                 (Raise (PyException "send on a closed websocket"));
               EvAccept 7 Ok];
     stdout := []; tick := 2 |}.

(** Two viewers, and the calls of a broadcast during which the first
    one's peer goes away: its session is told first (call 0), then the send
    to it fails (call 1). *)
Definition two_viewers : World :=
  set_connected_websockets [7; 8] initial_world.

Definition peer_goes_away : nat → outcome :=
  λ t, match t with
       | 0 => Raise WebSocketDisconnect
       | 1 => Raise (PyException "send on a closed websocket")
       | _ => Ok
       end.

(** Two connects that arrive while the link to ["AA:AA"] is up, the second
    before the first has come back from its first awaited call; the second
    is then served to its end while the first waits in [disconnect]. *)
Definition two_connects : list Turn :=
  [Arrives "BB:BB"; Arrives "CC:CC";
   Resumes 0; Resumes 1; Resumes 1; Resumes 1; Resumes 1;
   Resumes 0; Resumes 0; Resumes 0].

(** Two advertisements of one hub, the second one stronger. *)
Definition hub_heard_twice : list (BLEDevice * AdvertisementData) :=
  [({| dev_address := "AA:AA"; dev_name := Some "Ooni_DT_Hub" |}, {| rssi := -70 |});
   ({| dev_address := "AA:AA"; dev_name := Some "Ooni_DT_Hub" |}, {| rssi := -40 |})].

(** ** Further readings *)

(** The [except Exception] clause of [scan_devices] (lines 525-527), on the
    world the exception left. *)
Definition scan_failed (e : exn) (w : World) : Res Response * World :=
  if is_Exception e then (Val (Failure (str e)), set_scanning false w)
  else (Exn e, w).

(** No websocket was registered that was not before. *)
Definition adds_no_subscriber : relation World := λ w w',
  connected_websockets w' `sublist_of` connected_websockets w.

(** The same, and the cache is as it was. *)
Definition tidy : relation World := λ w w',
  current_data w' = current_data w ∧
  connected_websockets w' `sublist_of` connected_websockets w.

(** The sends of a broadcast over [xs], oldest first. *)
Definition sends_in_order (t : nat) (payload : option TelemetryDict)
    (xs : list nat) : list Event :=
  imap (λ i ws, EvSendJson ws payload (oracle (t + i))) xs.

(** A packet decoder with a bug of its own, to run the examples with. *)
Definition broken_packet (payload : list byte) : exn + PacketNotify :=
  inl (PyException "index out of range").

(** * Proofs *)

(** ** Worlds *)

(** Reading a field of an updated world. *)
Ltac world_simpl :=
  cbn [ble_client current_data connected_websockets scanning
       discovered_devices trace stdout tick
       set_ble_client set_current_data set_connected_websockets set_scanning
       set_discovered_devices set_trace set_stdout set_tick fst snd] in *.

Lemma World_eta (w : World) :
  mkWorld (ble_client w) (current_data w) (connected_websockets w) (scanning w)
          (discovered_devices w) (trace w) (stdout w) (tick w) = w.
Proof. by destruct w. Qed.

Lemma filter_none {A} (P : A → Prop) `{!∀ x, Decision (P x)} (l : list A) :
  (∀ x, x ∈ l → ¬ P x) → filter P l = [].
Proof.
  induction l as [|x l IH]; intros Hl; [done|].
  rewrite filter_cons_False by (apply Hl; left).
  apply IH. intros y Hy. apply Hl. by right.
Qed.

(** ** What a computation leaves as it is *)
Section Preserves.
Context (R : relation World) `{!PreOrder R}.

#[local] Abbreviation preserves := (preserves R).

Lemma preserves_ret {A} (a : A) : preserves (ret a).
Proof. by intros w. Qed.

Lemma preserves_raise {A} e : preserves (@raise A e).
Proof. by intros w. Qed.

Lemma preserves_gets {A} (f : World → A) : preserves (gets f).
Proof. by intros w. Qed.

Lemma preserves_call {A} (r : exn + A) : preserves (call r).
Proof. destruct r; [apply preserves_raise|apply preserves_ret]. Qed.

Lemma preserves_suspended {A} : preserves (λ w, (@Suspended A, w)).
Proof. by intros w. Qed.

Lemma preserves_modify f : (∀ w, R w (f w)) → preserves (modify f).
Proof. intros Hf w. apply Hf. Qed.

Lemma preserves_await mk :
  (∀ w o, R w (set_tick (S (tick w)) (set_trace (mk o :: trace w) w))) →
  preserves (await mk).
Proof.
  intros Hmk w. unfold await. specialize (Hmk w (oracle (tick w))).
  by destruct (oracle (tick w)).
Qed.

Lemma preserves_bind {A B} (m : M A) (k : A → M B) :
  preserves m → (∀ a, preserves (k a)) → preserves (bind m k).
Proof.
  intros Hm Hk w. unfold bind. specialize (Hm w).
  destruct (m w) as [[a|e|] w']; cbn in *; [|done..].
  etrans; [exact Hm|apply Hk].
Qed.

Lemma preserves_bind_gets {A B} (f : World → A) (k : A → M B) :
  (∀ w, R w (k (f w) w).2) → preserves (bind (gets f) k).
Proof. intros Hk w. apply Hk. Qed.

Lemma preserves_try_except {A} (body : M A) handlers :
  preserves body →
  (∀ e h, handlers e = Some h → preserves h) →
  preserves (try_except body handlers).
Proof.
  intros Hbody Hh w. unfold try_except. specialize (Hbody w).
  destruct (body w) as [[a|e|] w']; cbn in *; [done| |done].
  destruct (handlers e) as [h|] eqn:He; [|done].
  etrans; [exact Hbody|by eapply Hh].
Qed.

Lemma preserves_for_each {A} (xs : list A) body :
  (∀ x, x ∈ xs → preserves (body x)) → preserves (for_each xs body).
Proof.
  induction xs as [|x xs IH]; intros Hbody; cbn.
  - apply preserves_ret.
  - apply preserves_bind; [apply Hbody; left|].
    intros _. apply IH. intros y Hy. apply Hbody. by right.
Qed.

End Preserves.

(** [pres lemma]: apply a lemma of the section above and let the order's
    instance be found. *)
Tactic Notation "pres" uconstr(lemma) :=
  (apply lemma; try typeclasses eauto).

(** ** The scanner *)

Lemma scanner_run_collect heard : ∀ found w,
  ∃ found',
    scanner_run found heard w =
      (Val found',
       set_discovered_devices (discovered_devices w ++ collect found heard) w).
Proof.
  induction heard as [|[device advertisement] rest IH]; intros found w.
  - exists found. cbn. unfold ret, set_discovered_devices.
    by rewrite app_nil_r, World_eta.
  - cbn [scanner_run collect fst snd]. unfold bind at 1, detection_callback.
    destruct (bool_decide (dev_address device ∉ found)
              && bool_decide (dev_name device = Some "Ooni_DT_Hub")).
    + unfold bind at 1, modify, ret at 1.
      edestruct IH as [found' ->]. exists found'. f_equal.
      unfold set_discovered_devices, entry_of; cbn.
      by rewrite <- app_assoc.
    + unfold ret at 1. apply IH.
Qed.

Lemma collect_not_found heard : ∀ found e,
  e ∈ collect found heard → e_address e ∉ found.
Proof.
  induction heard as [|ad rest IH]; intros found e; cbn.
  - by intros ?%elem_of_nil.
  - destruct (bool_decide (dev_address ad.1 ∉ found)) eqn:Hfresh;
      destruct (bool_decide (dev_name ad.1 = Some "Ooni_DT_Hub")); cbn;
      try apply IH.
    intros [->|Hin]%elem_of_cons.
    + by apply bool_decide_eq_true in Hfresh.
    + apply IH in Hin. set_solver.
Qed.

Lemma collect_names heard : ∀ found e,
  e ∈ collect found heard → e_name e = "Ooni_DT_Hub".
Proof.
  induction heard as [|ad rest IH]; intros found e; cbn.
  - by intros ?%elem_of_nil.
  - destruct (bool_decide (dev_address ad.1 ∉ found));
      destruct (bool_decide (dev_name ad.1 = Some "Ooni_DT_Hub")) eqn:Hname;
      cbn; try apply IH.
    intros [->|Hin]%elem_of_cons; [|by eapply IH].
    apply bool_decide_eq_true in Hname. cbn. by rewrite Hname.
Qed.

Lemma collect_NoDup heard : ∀ found,
  NoDup (map e_address (collect found heard)).
Proof.
  induction heard as [|ad rest IH]; intros found; cbn.
  - constructor.
  - destruct (_ && _); [|apply IH].
    cbn. apply NoDup_cons. split; [|apply IH].
    intros (e & Heq & Hin%collect_not_found)%(list_elem_of_fmap_1 e_address).
    cbn in Heq. apply Hin. rewrite <- Heq.
    apply elem_of_union_l. by apply elem_of_singleton.
Qed.

Lemma collect_sublist heard : ∀ found,
  collect found heard `sublist_of` map entry_of heard.
Proof.
  induction heard as [|ad rest IH]; intros found; cbn.
  - constructor.
  - destruct (_ && _).
    + by apply sublist_skip.
    + by apply sublist_cons.
Qed.

Lemma collect_first_seen pre : ∀ found ad post,
  dev_address ad.1 ∉ found →
  named_hub ad →
  (∀ ad', ad' ∈ pre → named_hub ad' → dev_address ad'.1 ≠ dev_address ad.1) →
  filter (λ e, e_address e = dev_address ad.1) (collect found (pre ++ ad :: post))
  = [entry_of ad].
Proof.
  induction pre as [|ad0 pre IH]; intros found ad post Hfresh Hname Hpre.
  - cbn [app collect]. unfold named_hub in Hname.
    rewrite !bool_decide_eq_true_2 by done. cbn [andb].
    rewrite filter_cons_True by done. f_equal.
    apply filter_none. intros e He%collect_not_found. set_solver.
  - cbn [app collect].
    destruct (bool_decide (dev_address ad0.1 ∉ found)) eqn:Hfresh0;
      destruct (bool_decide (dev_name ad0.1 = Some "Ooni_DT_Hub")) eqn:Hname0;
      cbn [andb];
      try (apply IH; [done|done|by intros ad' ?; apply Hpre; right]).
    apply bool_decide_eq_true in Hname0.
    assert (dev_address ad0.1 ≠ dev_address ad.1) as Hne
      by (apply Hpre; [left|done]).
    rewrite filter_cons_False by done.
    apply IH; [|done|by intros ad' ?; apply Hpre; right].
    intros [?%elem_of_singleton|?]%elem_of_union; [congruence|].
    by apply bool_decide_eq_true in Hfresh0.
Qed.

Lemma collect_no_hub heard : ∀ found,
  Forall (λ ad, ¬ named_hub ad) heard → collect found heard = [].
Proof.
  induction heard as [|ad rest IH]; intros found Hall; [done|].
  apply Forall_cons in Hall as [Hno Hall]. cbn.
  rewrite (bool_decide_eq_false_2 (dev_name ad.1 = _)) by done.
  rewrite andb_false_r. by apply IH.
Qed.

Lemma collect_complete heard : ∀ found ad,
  ad ∈ heard → named_hub ad → dev_address ad.1 ∉ found →
  ∃ e, e ∈ collect found heard ∧ e_address e = dev_address ad.1.
Proof.
  induction heard as [|ad0 rest IH]; intros found ad Hin Hname Hfresh.
  - by apply elem_of_nil in Hin.
  - cbn [collect].
    destruct (bool_decide (dev_address ad0.1 ∉ found)) eqn:Hfresh0;
      destruct (bool_decide (dev_name ad0.1 = Some "Ooni_DT_Hub")) eqn:Hname0;
      cbn [andb].
    + destruct (decide (dev_address ad0.1 = dev_address ad.1)) as [Heq|Hne].
      * exists (entry_of ad0). split; [left|done].
      * apply elem_of_cons in Hin as [->|Hin]; [done|].
        destruct (IH ({[dev_address ad0.1]} ∪ found) ad) as (e & He & Ha);
          [done|done| |].
        { intros [?%elem_of_singleton|?]%elem_of_union; [congruence|done]. }
        exists e. split; [by right|done].
    + apply bool_decide_eq_false in Hname0.
      apply elem_of_cons in Hin as [->|Hin]; [done|]. by apply IH.
    + apply bool_decide_eq_false in Hfresh0.
      apply elem_of_cons in Hin as [->|Hin]; [|by apply IH].
      destruct Hfresh0. done.
    + apply bool_decide_eq_false in Hname0.
      apply elem_of_cons in Hin as [->|Hin]; [done|]. by apply IH.
Qed.

Lemma scan_devices_ok heard w :
  scanning w = false →
  oracle (tick w) = Ok →
  oracle (S (tick w)) = Ok →
  oracle (S (S (tick w))) = Ok →
  scan_devices heard w =
    (Val (ScanSuccess (collect ∅ heard)),
     mkWorld (ble_client w) (current_data w) (connected_websockets w) false
             (collect ∅ heard)
             (EvScannerStop Ok :: EvSleep 5 Ok :: EvScannerStart Ok :: trace w)
             (stdout w) (S (S (S (tick w))))).
Proof.
  intros Hidle H0 H1 H2.
  unfold scan_devices, bind at 1, gets at 1. rewrite Hidle.
  unfold bind at 1, modify at 1. unfold bind at 1, modify at 1.
  unfold try_except, bind at 1, await at 1. cbn [tick set_tick set_trace
    set_scanning set_discovered_devices trace]. rewrite H0.
  unfold bind at 1.
  match goal with |- context [scanner_run ∅ heard ?w0] =>
    destruct (scanner_run_collect heard ∅ w0) as [found' ->] end.
  unfold bind at 1, await at 1. cbn [tick set_tick set_trace
    set_scanning set_discovered_devices trace discovered_devices]. rewrite H1.
  unfold bind at 1, await at 1. cbn [tick set_tick set_trace
    set_scanning set_discovered_devices trace discovered_devices]. rewrite H2.
  reflexivity.
Qed.

(** C8. Two or more advertisements of one address with the hub's name
    during a scan leave exactly one entry for that address in the result,
    the one of the first such advertisement, with its signal strength;
    whatever is heard later from that address changes nothing. *)
Theorem scan_first_seen_wins heard w pre ad post :
  scanning w = false →
  oracle (tick w) = Ok →
  oracle (S (tick w)) = Ok →
  oracle (S (S (tick w))) = Ok →
  heard = pre ++ ad :: post →
  named_hub ad →
  (∀ ad', ad' ∈ pre → named_hub ad' → dev_address ad'.1 ≠ dev_address ad.1) →
  ∃ devices w',
    scan_devices heard w = (Val (ScanSuccess devices), w') ∧
    discovered_devices w' = devices ∧
    filter (λ e, e_address e = dev_address ad.1) devices =
      [{| e_address := dev_address ad.1;
          e_name := "Ooni_DT_Hub";
          e_rssi := rssi ad.2 |}].
Proof.
  intros Hidle H0 H1 H2 -> Hname Hpre.
  eexists _, _. split; [by apply scan_devices_ok|]. split; [done|].
  rewrite collect_first_seen by (done || set_solver).
  unfold entry_of. unfold named_hub in Hname. by rewrite Hname.
Qed.

(** C9 (as amended). Whatever duration the caller asks for, a scan that
    the transport lets run keeps its session open for five seconds, closes
    it, and returns the devices accumulated meanwhile in the order of their
    discovery: the list it returns is the module's [discovered_devices];
    every hub heard has its address in it, with the entry of the first
    advertisement heard from that address; it holds nothing but entries of
    advertisements heard, in the order they were heard, all of them named
    as the hub, no address twice; hearing no hub gives the empty list, as
    a success. *)
Theorem scan_window_is_five_seconds duration heard w :
  scanning w = false →
  oracle (tick w) = Ok →
  oracle (S (tick w)) = Ok →
  oracle (S (S (tick w))) = Ok →
  ∃ devices w',
    RequestScan duration heard w = (Val (ScanSuccess devices), w') ∧
    scan_window 5 w w' ∧
    scanning w' = false ∧
    discovered_devices w' = devices ∧
    (∀ ad, ad ∈ heard → named_hub ad →
       ∃ e, e ∈ devices ∧ e_address e = dev_address ad.1) ∧
    (∀ pre ad post,
       heard = pre ++ ad :: post →
       named_hub ad →
       (∀ ad', ad' ∈ pre → named_hub ad' →
               dev_address ad'.1 ≠ dev_address ad.1) →
       entry_of ad ∈ devices) ∧
    devices `sublist_of` map entry_of heard ∧
    (∀ e, e ∈ devices → e_name e = "Ooni_DT_Hub") ∧
    NoDup (map e_address devices) ∧
    (Forall (λ ad, ¬ named_hub ad) heard → devices = []).
Proof.
  intros Hidle H0 H1 H2.
  eexists _, _. split; [by apply scan_devices_ok|].
  split; [done|]. split; [done|]. split; [done|].
  split.
  { intros ad Hin Hname. by apply collect_complete; [| |set_solver]. }
  split.
  { intros pre ad post -> Hname Hpre.
    assert (entry_of ad ∈ filter (λ e, e_address e = dev_address ad.1)
                            (collect ∅ (pre ++ ad :: post))) as Hin.
    { rewrite collect_first_seen by (done || set_solver). left. }
    by apply list_elem_of_filter in Hin as [_ ?]. }
  split; [apply collect_sublist|].
  split; [apply collect_names|].
  split; [apply collect_NoDup|].
  apply collect_no_hub.
Qed.

(** ** notify_data *)

Lemma remove_first_middle x kept xs :
  x ∉ kept → remove_first x (kept ++ x :: xs) = Some (kept ++ xs).
Proof.
  induction kept as [|y kept IH]; intros Hx; cbn.
  - by rewrite decide_True.
  - apply not_elem_of_cons in Hx as [Hne Hx].
    rewrite decide_False by done. by rewrite IH.
Qed.

Lemma remove_first_elem_of x xs :
  x ∈ xs →
  ∃ kept rest, xs = kept ++ x :: rest ∧ (x ∉ kept) ∧
               remove_first x xs = Some (kept ++ rest).
Proof.
  induction xs as [|y xs IH]; [by intros ?%elem_of_nil|].
  destruct (decide (y = x)) as [->|Hne].
  - intros _. exists [], xs. cbn. rewrite decide_True by done.
    split_and!; [done|apply not_elem_of_nil|done].
  - intros [?|Hin]%elem_of_cons; [congruence|].
    destruct (IH Hin) as (kept & rest & -> & Hx & Hrm).
    exists (y :: kept), rest. cbn. rewrite decide_False by done. rewrite Hrm.
    split_and!; [done| |done].
    apply not_elem_of_cons. split; [congruence|done].
Qed.

Lemma remove_first_None x xs : remove_first x xs = None → x ∉ xs.
Proof.
  intros Hrm Hin. apply remove_first_elem_of in Hin as (? & ? & _ & _ & ?).
  congruence.
Qed.

Lemma remove_first_sublist x xs xs' :
  remove_first x xs = Some xs' → xs' `sublist_of` xs.
Proof.
  revert xs'. induction xs as [|y xs IH]; intros xs'; cbn; [done|].
  destruct (decide (y = x)).
  - intros [= <-]. by apply sublist_cons.
  - destruct (remove_first x xs) as [ys|]; [|done].
    intros [= <-]. apply sublist_skip. by apply IH.
Qed.

Lemma notify_data_decoded data d w :
  decoded data = inr d →
  notify_data data w =
    try_except broadcast
      (λ exc, match exc with
              | DecodeError _ =>
                  Some (print ("Failed to decode: " +:+ hex data +:+
                               " with error " +:+ str exc))
              | _ => None
              end)
      (set_current_data (Some d) w).
Proof.
  unfold decoded, notify_data. intros Hd.
  destruct (NotifyCharacteristic_decode data) as [?|packet_data]; [done|].
  destruct (PacketNotify_decode packet_data) as [?|packet] eqn:H2; [done|].
  injection Hd as <-.
  unfold try_except, broadcast, bind at 1. cbn [call]. unfold ret at 1.
  unfold bind at 1. rewrite H2. cbn [call]. unfold ret at 1.
  unfold bind at 1, modify at 1. reflexivity.
Qed.

Lemma notify_data_not_decoded data e w :
  decoded data = inl e →
  notify_data data w =
    match e with
    | DecodeError m =>
        (Val tt, set_stdout (("Failed to decode: " +:+ hex data +:+
                              " with error " +:+ m) :: stdout w) w)
    | _ => (Exn e, w)
    end.
Proof.
  unfold decoded, notify_data. intros Hd.
  destruct (NotifyCharacteristic_decode data) as [e1|packet_data] eqn:H1.
  - injection Hd as <-. by destruct e1.
  - destruct (PacketNotify_decode packet_data) as [e2|packet] eqn:H2; [|done].
    injection Hd as <-.
    unfold try_except, bind at 1. cbn [call]. unfold ret at 1.
    unfold bind at 1. rewrite H2. by destruct e2.
Qed.

(** The loop over a snapshot without duplicates: every subscriber is sent
    the cached record once, in order; the one whose send raises leaves the
    registry; the loop returns. *)
Lemma for_each_send_or_prune xs : ∀ kept w,
  connected_websockets w = kept ++ xs →
  NoDup (kept ++ xs) →
  for_each xs send_or_prune w =
    (Val tt,
     mkWorld (ble_client w) (current_data w) (kept ++ survivors (tick w) xs)
             (scanning w) (discovered_devices w)
             (send_events (tick w) (current_data w) xs ++ trace w)
             (stdout w) (tick w + length xs)).
Proof.
  induction xs as [|x xs IH]; intros kept w Hreg Hnodup.
  - cbn. unfold ret. rewrite Nat.add_0_r, <- Hreg. by rewrite World_eta.
  - cbn [for_each survivors send_events length].
    unfold bind at 1, send_or_prune at 1, try_except, send_current_data,
      bind at 1, gets at 1, await.
    destruct (oracle (tick w)) as [|e] eqn:Ho.
    + rewrite (IH (kept ++ [x])).
      * cbn. rewrite <- !app_assoc. cbn. do 2 f_equal. lia.
      * cbn. by rewrite <- app_assoc.
      * by rewrite <- app_assoc.
    + unfold websockets_remove. cbn [connected_websockets set_tick set_trace].
      rewrite Hreg, remove_first_middle.
      2:{ apply NoDup_app in Hnodup as (_ & Hdisj & _).
          intros Hin. apply (Hdisj x Hin). left. }
      rewrite (IH kept).
      * cbn. rewrite <- !app_assoc. cbn. do 2 f_equal. lia.
      * done.
      * apply NoDup_app in Hnodup as (? & Hdisj & [_ ?]%NoDup_cons).
        apply NoDup_app. split_and!; [done| |done].
        intros y Hy Hin. apply (Hdisj y Hy). by right.
Qed.

Lemma elem_of_survivors ws xs : ∀ t,
  ws ∈ survivors t xs ↔ ∃ i, xs !! i = Some ws ∧ oracle (t + i) = Ok.
Proof.
  induction xs as [|x xs IH]; intros t; cbn.
  - split; [by intros ?%elem_of_nil|by intros (i & ? & _)].
  - assert (ws ∈ survivors (S t) xs ↔
            ∃ i, (x :: xs) !! S i = Some ws ∧ oracle (t + S i) = Ok) as IH'.
    { rewrite IH. apply exist_proper. intros i. cbn.
      by replace (t + S i) with (S t + i) by lia. }
    destruct (oracle t) as [|e] eqn:Ho.
    + rewrite elem_of_cons, IH'. split.
      * intros [->|(i & ? & ?)]; [|by exists (S i)].
        exists 0. by rewrite Nat.add_0_r.
      * intros ([|i] & Hi & Hok); [left; by injection Hi|right; by exists i].
    + rewrite IH'. split.
      * intros (i & ? & ?). by exists (S i).
      * intros ([|i] & Hi & Hok); [|by exists i].
        rewrite Nat.add_0_r in Hok. congruence.
Qed.

Lemma survivors_sublist xs : ∀ t, survivors t xs `sublist_of` xs.
Proof.
  induction xs as [|x xs IH]; intros t; cbn; [done|].
  destruct (oracle t); [by apply sublist_skip|by apply sublist_cons].
Qed.

Lemma elem_of_send_events payload xs : ∀ t i ws,
  xs !! i = Some ws →
  EvSendJson ws payload (oracle (t + i)) ∈ send_events t payload xs.
Proof.
  induction xs as [|x xs IH]; intros t i ws; [done|].
  cbn [send_events]. rewrite elem_of_app. destruct i as [|i]; cbn.
  - intros [= ->]. right. rewrite Nat.add_0_r. left.
  - intros Hi. left. replace (t + S i) with (S t + i) by lia. by apply IH.
Qed.

(** The loop returns whatever the sends do: a subscriber of the snapshot
    is still in the registry when its own send fails. *)
Lemma for_each_send_or_prune_returns xs : ∀ w,
  xs ⊆+ connected_websockets w →
  (for_each xs send_or_prune w).1 = Val tt.
Proof.
  induction xs as [|x xs IH]; intros w Hsub; [done|].
  cbn [for_each].
  unfold bind at 1, send_or_prune at 1, try_except, send_current_data,
    bind at 1, gets at 1, await.
  destruct (oracle (tick w)) as [|e].
  - apply IH. world_simpl. etrans; [|exact Hsub]. by apply submseteq_cons.
  - unfold websockets_remove. world_simpl.
    assert (x ∈ connected_websockets w) as Hin.
    { apply submseteq_cons_l in Hsub as (k & Hperm & _).
      rewrite Hperm. left. }
    destruct (remove_first_elem_of _ _ Hin) as (kept & rest & Hreg & _ & ->).
    apply IH. world_simpl.
    rewrite Hreg, <- Permutation_middle in Hsub.
    by apply (submseteq_app_inv_l _ _ [x]).
Qed.

Lemma notify_data_distinct data d w :
  decoded data = inr d →
  NoDup (connected_websockets w) →
  notify_data data w =
    (Val tt,
     mkWorld (ble_client w) (Some d)
             (survivors (tick w) (connected_websockets w))
             (scanning w) (discovered_devices w)
             (send_events (tick w) (Some d) (connected_websockets w) ++ trace w)
             (stdout w) (tick w + length (connected_websockets w))).
Proof.
  intros Hd Hnodup. rewrite (notify_data_decoded _ _ _ Hd).
  unfold try_except, broadcast, bind at 1, gets at 1.
  by rewrite (for_each_send_or_prune _ []).
Qed.

#[local] Instance grows_preorder P : PreOrder (grows P).
Proof.
  split.
  - intros w. by exists [].
  - intros w1 w2 w3 (new1 & H1 & HP1) (new2 & H2 & HP2).
    exists (new2 ++ new1). rewrite H2, H1, app_assoc. split; [done|].
    by apply Forall_app.
Qed.

#[local] Instance quiet_preorder : PreOrder quiet.
Proof.
  split.
  - intros w. split; [done|reflexivity].
  - intros w1 w2 w3 [Hc1 Hg1] [Hc2 Hg2]. split; [congruence|by etrans].
Qed.

#[local] Instance broadcasting_preorder d subscribers :
  PreOrder (broadcasting d subscribers).
Proof.
  split.
  - intros w Hd. split_and!; [done|done|reflexivity].
  - intros w1 w2 w3 H1 H2 Hd.
    destruct (H1 Hd) as (Hd2 & Hsub1 & Hg1).
    destruct (H2 Hd2) as (Hd3 & Hsub2 & Hg2).
    split_and!; [done|by etrans|by etrans].
Qed.

#[local] Instance agree_equivalence : Equivalence agree.
Proof.
  split.
  - by intros w.
  - intros w v (? & ? & ? & ? & ? & ? & ?). by split_and!.
  - intros w1 w2 w3 (? & ? & ? & ? & ? & ? & ?) (? & ? & ? & ? & ? & ? & ?).
    split_and!; congruence.
Qed.

Lemma grows_push (P : Event → Prop) e w :
  P e → grows P w (set_tick (S (tick w)) (set_trace (e :: trace w) w)).
Proof. intros He. exists [e]. split; [done|by constructor]. Qed.

Lemma grows_weaken (P Q : Event → Prop) w w' :
  (∀ e, P e → Q e) → grows P w w' → grows Q w w'.
Proof.
  intros HPQ (new & Htr & Hnew). exists new. split; [done|].
  by eapply Forall_impl.
Qed.

Lemma preserves_websockets_remove (R : relation World) `{!PreOrder R} ws :
  (∀ w rest, rest `sublist_of` connected_websockets w →
             R w (set_connected_websockets rest w)) →
  preserves R (websockets_remove ws).
Proof.
  intros HR w. unfold websockets_remove.
  destruct (remove_first ws (connected_websockets w)) as [rest|] eqn:Hrm; cbn.
  - apply HR. by eapply remove_first_sublist.
  - done.
Qed.

Lemma send_or_prune_broadcasting d subscribers ws :
  ws ∈ subscribers → preserves (broadcasting d subscribers) (send_or_prune ws).
Proof.
  intros Hws. unfold send_or_prune, send_current_data.
  pres preserves_try_except.
  - apply preserves_bind_gets. intros w. unfold await.
    assert (broadcasting d subscribers w
              (set_tick (S (tick w))
                 (set_trace (EvSendJson ws (current_data w) (oracle (tick w))
                             :: trace w) w))) as Hpush.
    { intros Hd. split_and!; [done|done|]. apply grows_push.
      rewrite Hd. by eexists _, _. }
    by destruct (oracle (tick w)).
  - intros e h [= <-]. pres preserves_websockets_remove.
    intros w rest Hsub Hd. split_and!; [done| |by exists []].
    cbn. by apply sublist_subseteq.
Qed.

Lemma broadcast_broadcasting d w :
  broadcasting d (connected_websockets w) w (broadcast w).2.
Proof.
  unfold broadcast, bind at 1, gets at 1.
  pres (preserves_for_each (broadcasting d (connected_websockets w))).
  intros x Hx. by apply send_or_prune_broadcasting.
Qed.

(** [notify_data] does not look at what was printed. *)
Lemma blind_ret {A} (a : A) : blind (ret a).
Proof. by intros w v Hwv. Qed.

Lemma blind_raise {A} e : blind (@raise A e).
Proof. by intros w v Hwv. Qed.

Lemma blind_call {A} (r : exn + A) : blind (call r).
Proof. destruct r; [apply blind_raise|apply blind_ret]. Qed.

Lemma blind_bind {A B} (m : M A) (k : A → M B) :
  blind m → (∀ a, blind (k a)) → blind (bind m k).
Proof.
  intros Hm Hk w v Hwv. unfold bind. destruct (Hm w v Hwv) as [Hr Hw].
  destruct (m w) as [r1 w1], (m v) as [r2 v1]; cbn in *. subst r2.
  destruct r1; [by apply Hk|done..].
Qed.

Lemma blind_try_except {A} (body : M A) handlers :
  blind body → (∀ e h, handlers e = Some h → blind h) →
  blind (try_except body handlers).
Proof.
  intros Hbody Hh w v Hwv. unfold try_except.
  destruct (Hbody w v Hwv) as [Hr Hw].
  destruct (body w) as [r1 w1], (body v) as [r2 v1]; cbn in *. subst r2.
  destruct r1 as [a|e|]; [done| |done].
  destruct (handlers e) as [h|] eqn:He; [|done]. by eapply Hh.
Qed.

Lemma blind_for_each {A} (xs : list A) body :
  (∀ x, blind (body x)) → blind (for_each xs body).
Proof.
  intros Hbody. induction xs as [|x xs IH]; cbn; [apply blind_ret|].
  by apply blind_bind.
Qed.

Lemma blind_gets {A} (f : World → A) :
  (∀ w v, agree w v → f w = f v) → blind (gets f).
Proof.
  intros Hf w v Hwv. unfold gets; cbn. split; [|done]. f_equal. by apply Hf.
Qed.

Lemma blind_modify f :
  (∀ w v, agree w v → agree (f w) (f v)) → blind (modify f).
Proof. intros Hf w v Hwv. split; [done|by apply Hf]. Qed.

Lemma blind_print line : blind (print line).
Proof. by intros w v Hwv. Qed.

Lemma blind_send_or_prune ws : blind (send_or_prune ws).
Proof.
  apply blind_try_except.
  - intros w v Hwv. pose proof Hwv as (? & Hd & ? & ? & ? & Ht & Hn).
    unfold send_current_data, bind, gets, await. rewrite Hd, Ht, Hn.
    destruct (oracle (tick v)); cbn; (split; [done|by split_and!]).
  - intros e h [= <-] w v Hwv. pose proof Hwv as (? & ? & Hreg & ? & ? & ? & ?).
    unfold websockets_remove. rewrite Hreg.
    destruct (remove_first ws (connected_websockets v)); cbn; [|done].
    split; [done|by split_and!].
Qed.

Lemma notify_data_blind data : blind (notify_data data).
Proof.
  unfold notify_data. apply blind_try_except.
  - apply blind_bind; [apply blind_call|]. intros packet_data.
    apply blind_bind; [apply blind_call|]. intros packet.
    apply blind_bind.
    { apply blind_modify. intros w v (? & ? & ? & ? & ? & ? & ?).
      by split_and!. }
    intros _. apply blind_bind.
    { apply blind_gets. by intros w v (? & ? & ? & ? & ? & ? & ?). }
    intros snapshot. apply blind_for_each, blind_send_or_prune.
  - intros e h He. destruct e; try done. injection He as <-.
    apply blind_print.
Qed.

(** A successful decode: the record is cached first, then sent around. *)
Lemma notify_data_broadcasting data d w :
  decoded data = inr d →
  broadcasting d (connected_websockets w)
    (set_current_data (Some d) w) (notify_data data w).2.
Proof.
  intros Hd. rewrite (notify_data_decoded _ _ _ Hd).
  unfold try_except.
  pose proof (broadcast_broadcasting d (set_current_data (Some d) w)) as Hb.
  cbn [connected_websockets set_current_data] in Hb.
  destruct (broadcast _) as [[[]|e|] w'] eqn:Hrun; cbn [snd] in *;
    [exact Hb| |exact Hb].
  destruct e; [|exact Hb..].
  etrans; [exact Hb|]. intros Hd'. split_and!; [done|done|by exists []].
Qed.

Lemma run_notifications_snoc datas data w :
  run_notifications (datas ++ [data]) w =
    (notify_data data (run_notifications datas w)).2.
Proof. unfold run_notifications. by rewrite foldl_app. Qed.

Lemma notify_data_current_data data w :
  current_data (notify_data data w).2 =
    match decoded data with
    | inr d => Some d
    | inl _ => current_data w
    end.
Proof.
  destruct (decoded data) as [e|d] eqn:Hd.
  - rewrite (notify_data_not_decoded _ _ _ Hd). by destruct e.
  - by destruct (notify_data_broadcasting _ _ w Hd) as (-> & _).
Qed.

Lemma run_notifications_current_data datas : ∀ w,
  current_data (run_notifications datas w) =
    match last_decoded datas with
    | Some d => Some d
    | None => current_data w
    end.
Proof.
  induction datas as [|data datas IH] using rev_ind; intros w; [done|].
  rewrite run_notifications_snoc, notify_data_current_data.
  unfold last_decoded. rewrite foldl_app. cbn.
  destruct (decoded data); [|done]. apply IH.
Qed.

(** C6. The cache is the one global [current_data].  A notification that
    does not decode leaves it as it was; one that decodes replaces it by
    the whole new record, all nine fields read from the packet, before
    anything is sent, so that every send of that callback carries the new
    record; after any run of notifications the cache holds the record of
    the last one that decoded. *)
Theorem cached_record_is_last_decoded :
  (∀ data w,
     match decoded data with
     | inl _ => current_data (notify_data data w).2 = current_data w
     | inr d =>
         current_data (notify_data data w).2 = Some d ∧
         grows (λ e, ∃ ws o, e = EvSendJson ws (Some d) o)
               w (notify_data data w).2
     end) ∧
  (∀ datas w,
     current_data (run_notifications datas w) =
       match last_decoded datas with
       | Some d => Some d
       | None => current_data w
       end) ∧
  (∀ data packet_data packet w,
     NotifyCharacteristic_decode data = inr packet_data →
     PacketNotify_decode packet_data = inr packet →
     current_data (notify_data data w).2 =
       Some {| d_battery := battery packet;
               d_ambient_a := ambient_a packet;
               d_ambient_b := ambient_b packet;
               d_probe_p1 := probe_p1 packet;
               d_probe_p2 := probe_p2 packet;
               d_probe_p1_connected := probe_p1_connected packet;
               d_probe_p2_connected := probe_p2_connected packet;
               d_eco_mode := eco_mode packet;
               d_temperature_unit := value (temperature_unit packet) |}).
Proof.
  split_and!.
  - intros data w. pose proof (notify_data_current_data data w) as Hcur.
    destruct (decoded data) as [e|d] eqn:Hd; [done|]. split; [done|].
    destruct (notify_data_broadcasting _ _ w Hd) as (_ & _ & Hg); [done|].
    eapply grows_weaken; [|exact Hg].
    intros e (ws & o & -> & _). by eexists _, _.
  - intros. apply run_notifications_current_data.
  - intros data packet_data packet w H1 H2.
    rewrite notify_data_current_data. unfold decoded. by rewrite H1, H2.
Qed.

(** C5. A notification whose decoding raises [DecodeError] makes the
    callback print the failure with the payload in hex and return; nothing
    else in the world changes (no call to the transport, the held client,
    the cache and the registry as they were), and any later notification is
    processed as if the bad one had not come. *)
Theorem decode_error_is_absorbed data msg w :
  decoded data = inl (DecodeError msg) →
  notify_data data w =
    (Val tt,
     set_stdout (("Failed to decode: " +:+ hex data +:+ " with error " +:+ msg)
                 :: stdout w) w) ∧
  ∀ data',
    (notify_data data' (notify_data data w).2).1 = (notify_data data' w).1 ∧
    agree (notify_data data' (notify_data data w).2).2 (notify_data data' w).2.
Proof.
  intros Hd. rewrite (notify_data_not_decoded _ _ _ Hd). split; [done|].
  intros data'. by apply notify_data_blind.
Qed.


(** ** websocket_endpoint *)







Lemma discard_websocket_spec ws w :
  ∃ rest,
    discard_websocket ws w = (Val tt, set_connected_websockets rest w) ∧
    rest `sublist_of` connected_websockets w ∧
    (ws ∉ connected_websockets w → rest = connected_websockets w) ∧
    (NoDup (connected_websockets w) → ws ∉ rest) ∧
    (∀ x, x ≠ ws → x ∈ connected_websockets w → x ∈ rest).
Proof.
  unfold discard_websocket, bind, gets, contains. case_bool_decide as Hin.
  - destruct (remove_first_elem_of _ _ Hin) as (kept & rest & Hreg & Hkept & Hrm).
    exists (kept ++ rest). unfold websockets_remove. rewrite Hrm.
    split_and!; [done|by eapply remove_first_sublist|done| |].
    + rewrite Hreg. intros (_ & Hdisj & [Hrest _]%NoDup_cons)%NoDup_app.
      by intros [?|?]%elem_of_app.
    + rewrite Hreg. intros x Hne. rewrite !elem_of_app, elem_of_cons.
      intros [?|[?|?]]; [by left|done|by right].
  - exists (connected_websockets w). unfold ret, set_connected_websockets.
    rewrite World_eta. by split_and!.
Qed.

Lemma receive_forever_raises ws e k : ∀ fuel w,
  k < fuel →
  (∀ i, i < k → oracle (tick w + i) = Ok) →
  oracle (tick w + k) = Raise e →
  ∃ texts,
    receive_forever fuel ws w =
      (Exn e, set_tick (S (tick w + k))
                (set_trace (EvReceiveText ws (Raise e) :: texts ++ trace w) w)) ∧
    texts = replicate k (EvReceiveText ws Ok).
Proof.
  induction k as [|k IH]; intros [|fuel] w Hfuel Hok Hraise; try lia.
  - exists []. cbn [receive_forever]. unfold bind, await.
    rewrite Nat.add_0_r in Hraise. rewrite Hraise. by rewrite Nat.add_0_r.
  - cbn [receive_forever]. unfold bind at 1, await at 1.
    assert (oracle (tick w) = Ok) as ->
      by (rewrite <- (Nat.add_0_r (tick w)); apply Hok; lia).
    edestruct (IH fuel) as (texts & -> & ->); [lia| | |].
    + intros i Hi. cbn. replace (S (tick w + i)) with (tick w + S i) by lia.
      apply Hok. lia.
    + cbn. by replace (S (tick w + k)) with (tick w + S k) by lia.
    + eexists. split; [|done]. cbn. f_equal.
      replace (S (tick w + k)) with (tick w + S k) by lia.
      unfold set_tick, set_trace; cbn. do 2 f_equal.
      by rewrite cons_middle, app_assoc, <- replicate_cons_app.
Qed.





(** C10. When the keep-alive loop of a session ends with a disconnect or
    with any other [Exception], the handler returns normally, in whatever
    state the registry is by then: a subscriber still registered is taken
    out, one that a broadcast has pruned meanwhile is not looked for again,
    and no other subscriber is touched. *)
Theorem session_end_discards_subscriber fuel ws k e w :
  k < fuel →
  (∀ i, i < k → oracle (tick w + i) = Ok) →
  oracle (tick w + k) = Raise e →
  is_Exception e = true →
  ∃ w',
    keep_alive fuel ws w = (Val tt, w') ∧
    (NoDup (connected_websockets w) → ws ∉ connected_websockets w') ∧
    (ws ∉ connected_websockets w →
       connected_websockets w' = connected_websockets w) ∧
    connected_websockets w' `sublist_of` connected_websockets w ∧
    (∀ x, x ≠ ws → x ∈ connected_websockets w → x ∈ connected_websockets w').
Proof.
  intros Hfuel Hok Hraise Hexc. unfold keep_alive, try_except.
  destruct (receive_forever_raises ws e k fuel w) as (texts & -> & _); [done..|].
  match goal with |- context [set_tick ?t (set_trace ?tr w)] =>
    set (w1 := set_tick t (set_trace tr w)) end.
  destruct (discard_websocket_spec ws w1) as (rest1 & Hrun1 & Hspec1).
  destruct (discard_websocket_spec ws
              (set_stdout (("WebSocket error: " +:+ str e) :: stdout w1) w1))
    as (rest2 & Hrun2 & Hspec2).
  destruct Hspec1 as (? & ? & ? & ?), Hspec2 as (? & ? & ? & ?).
  destruct e; cbn in Hexc; try done; cbn [is_Exception].
  - unfold bind, print, modify. rewrite Hrun2. eexists. by split_and!.
  - rewrite Hrun1. eexists. by split_and!.
  - unfold bind, print, modify. rewrite Hrun2. eexists. by split_and!.
Qed.

(** ** connect_ble *)

Lemma connect_ble_split addr :
  connect_ble addr = (teardown ;; open_link addr).
Proof. reflexivity. Qed.

(** The teardown: skipped when no client is held or the held one is not
    connected; otherwise [stop_notify], then [disconnect], the first that
    raises ending it. *)
Lemma teardown_spec w :
  teardown w =
    match ble_client w with
    | Some c =>
        if link_is_up c w then
          match oracle (tick w) with
          | Raise e => (Exn e, after_call (EvStopNotify c (Raise e)) w)
          | Ok =>
              match oracle (S (tick w)) with
              | Raise e =>
                  (Exn e, after_call (EvDisconnect c (Raise e))
                            (after_call (EvStopNotify c Ok) w))
              | Ok =>
                  (Val tt, after_call (EvDisconnect c Ok)
                             (after_call (EvStopNotify c Ok) w))
              end
          end
        else (Val tt, w)
    | None => (Val tt, w)
    end.
Proof.
  unfold teardown, shutdown_event, bind at 1, gets at 1.
  destruct (ble_client w) as [c|]; [|done].
  unfold bind at 1, client_is_connected, gets at 1. fold (link_is_up c w).
  destruct (link_is_up c w); [|done].
  unfold bind, await. destruct (oracle (tick w)); [|done].
  world_simpl. by destruct (oracle (S (tick w))).
Qed.

(** Opening the new link: the client object is created and stored in
    [ble_client] before [connect] is awaited. *)
Lemma open_link_spec addr w :
  let c := length (transport_of (trace w)) in
  let w1 := set_ble_client (Some c)
              (set_trace (EvNewClient addr 20 :: trace w) w) in
  open_link addr w =
    match oracle (tick w) with
    | Raise e => (Exn e, after_call (EvConnect c (Raise e)) w1)
    | Ok =>
        match oracle (S (tick w)) with
        | Raise e =>
            (Exn e, after_call (EvStartNotify c (Raise e))
                      (after_call (EvConnect c Ok) w1))
        | Ok =>
            (Val true, after_call (EvStartNotify c Ok)
                         (after_call (EvConnect c Ok) w1))
        end
    end.
Proof.
  intros c w1. unfold open_link, bind at 1, new_client.
  unfold bind at 1, modify at 1. fold c. fold w1.
  unfold bind, await. change (tick w1) with (tick w).
  destruct (oracle (tick w)); [|done].
  change (tick (set_tick ?n _)) with n.
  by destruct (oracle (S (tick w))).
Qed.

Lemma connect_endpoint_spec addr w :
  connect_endpoint addr w =
    match connect_ble addr w with
    | (Val _, w') => (Val (ConnectSuccess addr), w')
    | (Exn e, w') =>
        if is_Exception e then (Val (Failure (str e)), w') else (Exn e, w')
    | (Suspended, w') => (Suspended, w')
    end.
Proof.
  unfold connect_endpoint, try_except, bind at 1.
  destruct (connect_ble addr w) as [[b|e|] w']; [done| |done].
  by destruct (is_Exception e).
Qed.

(** The transport's view of a fresh client. *)
Lemma transport_new_client addr tmo tr :
  transport_of (EvNewClient addr tmo :: tr) !! length (transport_of tr) =
    Some {| address := addr; timeout := tmo;
            is_connected := false; notifying := false |}.
Proof. cbn. by rewrite list_lookup_middle. Qed.



(** ** One subscription at a time *)

Lemma filter_live_unique (t : list BleakClient) :
  (∀ i j ci cj, t !! i = Some ci → t !! j = Some cj →
                live ci = true → live cj = true → i = j) →
  at_most_one_live t.
Proof.
  unfold at_most_one_live, live_subscriptions.
  induction t as [|cl t IH]; intros Huniq; [cbn; lia|].
  destruct (decide (live cl = true)) as [Hlive|Hdead].
  - rewrite filter_cons_True by done.
    rewrite (filter_none _ t); [cbn; lia|].
    intros cl' [j Hj]%list_elem_of_lookup Hlive'.
    by specialize (Huniq 0 (S j) cl cl' eq_refl Hj Hlive Hlive').
  - rewrite filter_cons_False by done. apply IH.
    intros i j ci cj Hi Hj Hci Hcj.
    by specialize (Huniq (S i) (S j) ci cj Hi Hj Hci Hcj) as [= ->].
Qed.

Lemma only_held_live_at_most_one held t :
  only_held_live held t → at_most_one_live t.
Proof.
  intros Hheld. apply filter_live_unique. intros i j ci cj Hi Hj Hci Hcj.
  pose proof (Hheld i ci Hi Hci). pose proof (Hheld j cj Hj Hcj). congruence.
Qed.

Lemma nobody_live_only_held held t : nobody_live t → only_held_live held t.
Proof. intros Hno i cl Hi Hlive. rewrite (Hno i cl Hi) in Hlive. done. Qed.

Lemma always_cons P e tr :
  always P tr → P (transport_of (e :: tr)) → always P (e :: tr).
Proof.
  intros Htr He past [[|e' k] Hk]; cbn in Hk.
  - by subst past.
  - injection Hk as -> ->. apply Htr. by exists k.
Qed.

Lemma always_tail P e tr : always P (e :: tr) → always P tr.
Proof. intros H past Hpast. apply H. by apply suffix_cons_r. Qed.

(** After a shrinking call every client is as live as before, at most. *)
Lemma shrinking_step e t i cl' :
  shrinking e = true →
  transport_step e t !! i = Some cl' →
  ∃ cl, t !! i = Some cl ∧ (live cl' = true → live cl = true).
Proof.
  assert (∀ f c, (∀ cl, live (f cl) = true → live cl = true) →
                 alter f c t !! i = Some cl' →
                 ∃ cl, t !! i = Some cl ∧ (live cl' = true → live cl = true))
    as Halter.
  { intros f c Hf. destruct (decide (c = i)) as [->|Hne].
    - rewrite list_lookup_alter_eq. destruct (t !! i) as [cl|]; [|done].
      intros [= <-]. exists cl. split; [done|apply Hf].
    - rewrite list_lookup_alter_ne by done. intros Hi. by exists cl'. }
  assert (∀ cl, live (link_down cl) = true → live cl = true) as Hdown by done.
  assert (∀ cl, live (set_notifying false cl) = true → live cl = true) as Hstop.
  { intros cl. unfold live; cbn. by rewrite andb_false_r. }
  destruct e as [? ?|? o|? o|? o|? o|?|? ?|? ? ?|? ?|?|? ?|?];
    try destruct o; cbn; try done;
    try (by intros _ Hi; exists cl'); intros _; by apply Halter.
Qed.

Lemma shrinking_only_held e held tr :
  shrinking e = true →
  only_held_live held (transport_of tr) →
  only_held_live held (transport_of (e :: tr)).
Proof.
  intros He Hheld i cl' Hi Hlive.
  destruct (shrinking_step e _ i cl' He Hi) as (cl & Hcl & Himp).
  eapply Hheld; [exact Hcl|by apply Himp].
Qed.

Lemma shrinking_nobody e tr :
  shrinking e = true →
  nobody_live (transport_of tr) → nobody_live (transport_of (e :: tr)).
Proof.
  intros He Hno i cl' Hi.
  destruct (shrinking_step e _ i cl' He Hi) as (cl & Hcl & Himp).
  destruct (live cl') eqn:Hlive; [|done].
  rewrite <- (Hno i cl Hcl). symmetry. by apply Himp.
Qed.

Lemma idle_held held tr : idle_inv tr → held_inv held tr.
Proof. intros [? ?]. split; [done|by apply nobody_live_only_held]. Qed.

Lemma held_inv_shrinking e held tr :
  shrinking e = true → held_inv held tr → held_inv held (e :: tr).
Proof.
  intros He [Halw Hheld].
  assert (only_held_live held (transport_of (e :: tr))) as Hheld'
    by by apply shrinking_only_held.
  split; [|done]. apply always_cons; [done|].
  by eapply only_held_live_at_most_one.
Qed.

Lemma idle_inv_intro tr e :
  always at_most_one_live tr →
  nobody_live (transport_of (e :: tr)) →
  idle_inv (e :: tr).
Proof.
  intros Halw Hno. split; [|done]. apply always_cons; [done|].
  eapply only_held_live_at_most_one, (nobody_live_only_held None), Hno.
Qed.

Lemma idle_inv_shrinking e tr :
  shrinking e = true → idle_inv tr → idle_inv (e :: tr).
Proof.
  intros He [Halw Hno]. apply idle_inv_intro; [done|].
  by apply shrinking_nobody.
Qed.

Lemma held_inv_none tr : held_inv None tr → idle_inv tr.
Proof.
  intros [Halw Hheld]. split; [done|]. intros i cl Hi.
  destruct (live cl) eqn:Hlive; [|done]. by specialize (Hheld i cl Hi Hlive).
Qed.

Lemma held_inv_down c tr :
  held_inv (Some c) tr →
  match transport_of tr !! c with
  | Some cl => is_connected cl
  | None => false
  end = false →
  idle_inv tr.
Proof.
  intros [Halw Hheld] Hdown. split; [done|]. intros i cl Hi.
  destruct (live cl) eqn:Hlive; [|done].
  specialize (Hheld i cl Hi Hlive) as [= ->]. rewrite Hi in Hdown.
  unfold live in Hlive. by rewrite Hdown in Hlive.
Qed.

(** After [stop_notify] and [disconnect] have both returned, nobody is
    live. *)
Lemma held_inv_torn_down c tr :
  held_inv (Some c) tr →
  idle_inv (EvDisconnect c Ok :: EvStopNotify c Ok :: tr).
Proof.
  intros Hinv.
  assert (held_inv (Some c) (EvStopNotify c Ok :: tr)) as [Halw Hheld]
    by by apply held_inv_shrinking.
  apply idle_inv_intro; [done|]. intros i cl Hi.
  change (transport_of (EvDisconnect c Ok :: ?tr'))
    with (alter link_down c (transport_of tr')) in Hi.
  destruct (decide (c = i)) as [->|Hne].
  - rewrite list_lookup_alter_eq in Hi.
    destruct (transport_of _ !! i); by simplify_eq/=.
  - rewrite list_lookup_alter_ne in Hi by done.
    destruct (live cl) eqn:Hlive; [|done].
    specialize (Hheld i cl Hi Hlive). congruence.
Qed.

(** A new client object, connected or not, subscribes nobody. *)
Lemma idle_inv_new_client addr tmo tr :
  idle_inv tr → idle_inv (EvNewClient addr tmo :: tr).
Proof.
  intros [Halw Hno]. apply idle_inv_intro; [done|]. intros i cl. cbn.
  intros [Hi|[_ Hi]]%lookup_app_Some; [by eapply Hno|].
  destruct (i - _); by simplify_eq/=.
Qed.

Lemma idle_inv_connect addr tmo tr o :
  idle_inv tr →
  idle_inv (EvConnect (length (transport_of tr)) o :: EvNewClient addr tmo :: tr).
Proof.
  intros Hidle. pose proof (idle_inv_new_client addr tmo tr Hidle) as [Halw Hno].
  destruct o as [|e]; [|by apply idle_inv_shrinking].
  apply idle_inv_intro; [done|]. intros i cl Hi.
  change (transport_of (EvConnect ?c Ok :: ?tr'))
    with (alter (set_is_connected true) c (transport_of tr')) in Hi.
  destruct (decide (length (transport_of tr) = i)) as [<-|Hne].
  - rewrite list_lookup_alter_eq, transport_new_client in Hi.
    by injection Hi as <-.
  - rewrite list_lookup_alter_ne in Hi by done. by eapply Hno.
Qed.

Lemma idle_inv_start_notify c tr o :
  idle_inv tr → held_inv (Some c) (EvStartNotify c o :: tr).
Proof.
  intros Hidle.
  destruct o as [|e]; [|by apply idle_held, idle_inv_shrinking].
  destruct Hidle as [Halw Hno].
  assert (only_held_live (Some c) (transport_of (EvStartNotify c Ok :: tr)))
    as Hheld.
  { intros i cl Hi Hlive.
    change (transport_of (EvStartNotify c Ok :: tr))
      with (alter (set_notifying true) c (transport_of tr)) in Hi.
    destruct (decide (c = i)) as [->|Hne]; [done|].
    rewrite list_lookup_alter_ne in Hi by done.
    rewrite (Hno i cl Hi) in Hlive. done. }
  split; [|done]. apply always_cons; [done|].
  by eapply only_held_live_at_most_one.
Qed.

Lemma held_inv_silent held new tr :
  Forall (λ e, silent e = true) new → held_inv held tr → held_inv held (new ++ tr).
Proof.
  induction 1 as [|e new He _ IH]; intros Hinv; [done|].
  cbn. apply held_inv_shrinking; [by destruct e|by apply IH].
Qed.

Lemma quiet_link_invariant w w' :
  quiet w w' → link_invariant w → link_invariant w'.
Proof.
  unfold link_invariant. intros [-> (new & -> & Hnew)].
  by apply held_inv_silent.
Qed.

Lemma quiet_fields w w' :
  ble_client w' = ble_client w → trace w' = trace w → quiet w w'.
Proof. intros Hc Htr. split; [done|]. by exists []. Qed.

Lemma quiet_call e w :
  silent e = true → quiet w (set_tick (S (tick w)) (set_trace (e :: trace w) w)).
Proof. intros He. split; [done|]. by apply grows_push. Qed.

Lemma websockets_remove_quiet ws : preserves quiet (websockets_remove ws).
Proof.
  pres preserves_websockets_remove. intros w rest _. by apply quiet_fields.
Qed.

Lemma notify_data_quiet data : preserves quiet (notify_data data).
Proof.
  unfold notify_data. pres preserves_try_except.
  - pres preserves_bind; [pres preserves_call|intros packet_data].
    pres preserves_bind; [pres preserves_call|intros packet].
    pres preserves_bind.
    { pres preserves_modify. intros w. by apply quiet_fields. }
    intros _. pres preserves_bind; [pres preserves_gets|intros snapshot].
    pres preserves_for_each. intros ws _. pres preserves_try_except.
    + unfold send_current_data.
      pres preserves_bind; [pres preserves_gets|intros payload].
      pres preserves_await. intros w o. by apply quiet_call.
    + intros e h [= <-]. apply websockets_remove_quiet.
  - intros e h He. destruct e; try done. injection He as <-.
    pres preserves_modify. intros w. by apply quiet_fields.
Qed.

Lemma discard_websocket_quiet ws : preserves quiet (discard_websocket ws).
Proof.
  intros w. destruct (discard_websocket_spec ws w) as (rest & -> & _).
  by apply quiet_fields.
Qed.

Lemma keep_alive_quiet fuel ws : preserves quiet (keep_alive fuel ws).
Proof.
  unfold keep_alive. pres preserves_try_except.
  - induction fuel as [|fuel IH]; cbn; [pres preserves_suspended|].
    pres preserves_bind; [|by intros _].
    pres preserves_await. intros w o. by apply quiet_call.
  - intros e h He.
    assert (h = discard_websocket ws ∨
            h = (print ("WebSocket error: " +:+ str e) ;; discard_websocket ws))
      as [->| ->].
    { destruct e; cbn in He; try done; injection He as <-; auto. }
    + apply discard_websocket_quiet.
    + pres preserves_bind; [|intros _; apply discard_websocket_quiet].
      pres preserves_modify. intros w. by apply quiet_fields.
Qed.

Lemma websocket_endpoint_quiet fuel ws :
  preserves quiet (websocket_endpoint fuel ws).
Proof.
  unfold websocket_endpoint.
  pres preserves_bind.
  { pres preserves_await. intros w o. by apply quiet_call. }
  intros _. pres preserves_bind.
  { pres preserves_modify. intros w. by apply quiet_fields. }
  intros _. pres preserves_bind; [pres preserves_gets|intros cached].
  pres preserves_bind; [|intros _; apply keep_alive_quiet].
  destruct cached; [|pres preserves_ret].
  unfold send_current_data.
  pres preserves_bind; [pres preserves_gets|intros payload].
  pres preserves_await. intros w o. by apply quiet_call.
Qed.

Lemma scan_devices_quiet heard : preserves quiet (scan_devices heard).
Proof.
  unfold scan_devices.
  pres preserves_bind; [pres preserves_gets|intros busy].
  destruct busy; [pres preserves_ret|].
  pres preserves_bind.
  { pres preserves_modify. intros w. by apply quiet_fields. }
  intros _. pres preserves_bind.
  { pres preserves_modify. intros w. by apply quiet_fields. }
  intros _. pres preserves_try_except.
  - pres preserves_bind.
    { pres preserves_await. intros w o. by apply quiet_call. }
    intros _. pres preserves_bind.
    { intros w. destruct (scanner_run_collect heard ∅ w) as [found ->].
      by apply quiet_fields. }
    intros _. pres preserves_bind.
    { pres preserves_await. intros w o. by apply quiet_call. }
    intros _. pres preserves_bind.
    { pres preserves_await. intros w o. by apply quiet_call. }
    intros _. pres preserves_bind.
    { pres preserves_modify. intros w. by apply quiet_fields. }
    intros _. pres preserves_bind; [pres preserves_gets|intros devices].
    pres preserves_ret.
  - intros e h He. destruct (is_Exception e); [|done]. injection He as <-.
    pres preserves_bind; [|intros _; pres preserves_ret].
    pres preserves_modify. intros w. by apply quiet_fields.
Qed.

Lemma teardown_link_invariant w :
  link_invariant w →
  match teardown w with
  | (Val _, w1) => idle_inv (trace w1)
  | (_, w1) => link_invariant w1
  end.
Proof.
  unfold link_invariant. intros Hinv. rewrite teardown_spec.
  destruct (ble_client w) as [c|] eqn:Hheld; [|by apply held_inv_none].
  unfold link_is_up.
  destruct (match transport_of (trace w) !! c with
            | Some cl => is_connected cl
            | None => false
            end) eqn:Hup; [|by eapply held_inv_down].
  destruct (oracle (tick w)) as [|e].
  - destruct (oracle (S (tick w))) as [|e].
    + by apply held_inv_torn_down.
    + unfold after_call; world_simpl. rewrite Hheld.
      by do 2 (apply held_inv_shrinking; [done|]).
  - unfold after_call; world_simpl. rewrite Hheld.
    by apply held_inv_shrinking.
Qed.

Lemma open_link_link_invariant addr w :
  idle_inv (trace w) → link_invariant (open_link addr w).2.
Proof.
  intros Hidle. rewrite open_link_spec. unfold link_invariant.
  pose proof (idle_inv_connect addr 20 (trace w)) as Hconnect.
  destruct (oracle (tick w)) as [|e].
  - destruct (oracle (S (tick w))) as [|e]; unfold after_call; world_simpl;
      by apply idle_inv_start_notify, Hconnect.
  - unfold after_call; world_simpl. by apply idle_held, Hconnect.
Qed.

Lemma connect_endpoint_link_invariant addr w :
  link_invariant w → link_invariant (connect_endpoint addr w).2.
Proof.
  intros Hinv. rewrite connect_endpoint_spec.
  assert (link_invariant (connect_ble addr w).2) as Hble.
  { rewrite connect_ble_split. unfold bind.
    pose proof (teardown_link_invariant w Hinv) as Htear.
    destruct (teardown w) as [[[]|e|] w1]; [|done..].
    by apply open_link_link_invariant. }
  destruct (connect_ble addr w) as [[b|e|] w']; [done| |done].
  by destruct (is_Exception e).
Qed.

Lemma shutdown_event_link_invariant w :
  link_invariant w → link_invariant (shutdown_event w).2.
Proof.
  intros Hinv. pose proof (teardown_link_invariant w Hinv) as Htear.
  unfold teardown in Htear.
  assert (ble_client (shutdown_event w).2 = ble_client w) as Hheld.
  { change shutdown_event with teardown. rewrite teardown_spec.
    destruct (ble_client w) as [c|] eqn:Hc; [|done].
    destruct (link_is_up c w); [|done].
    destruct (oracle (tick w)); [|done]. by destruct (oracle (S (tick w))). }
  destruct (shutdown_event w) as [[[]|e|] w1]; cbn in *; [|done..].
  unfold link_invariant. by apply idle_held.
Qed.

Lemma step_link_invariant w w' :
  step w w' → link_invariant w → link_invariant w'.
Proof.
  destruct 1.
  - apply connect_endpoint_link_invariant.
  - apply shutdown_event_link_invariant.
  - apply quiet_link_invariant, notify_data_quiet.
  - apply quiet_link_invariant, scan_devices_quiet.
  - apply quiet_link_invariant, websocket_endpoint_quiet.
  - apply quiet_link_invariant, keep_alive_quiet.
  - unfold link_invariant; world_simpl. by apply held_inv_shrinking.
Qed.

Lemma initial_world_link_invariant : link_invariant initial_world.
Proof.
  split.
  - intros past ->%suffix_nil_inv. cbv. lia.
  - by intros i cl.
Qed.

(** ** The handlers between their awaits *)

(** Resumed with nothing else in between, the handlers of this section are
    the handlers of the first part. *)
Lemma connect_ble_open_spec addr w :
  connect_ble_open addr w =
    (inl (InConnect (length (transport_of (trace w)))),
     set_ble_client (Some (length (transport_of (trace w))))
       (set_trace (EvNewClient addr 20 :: trace w) w)).
Proof. reflexivity. Qed.

Lemma connect_ble_run_waiting n addr p w :
  connect_ble_run (S n) addr (inl p, w) =
    connect_ble_run n addr (connect_ble_resume addr p w).
Proof. reflexivity. Qed.

Lemma connect_ble_run_left n addr r w :
  connect_ble_run n addr (inr r, w) = (r, w).
Proof. by destruct n. Qed.

Lemma connect_ble_resume_raise addr p w e :
  oracle (tick w) = Raise e →
  connect_ble_resume addr p w =
    (inr (Exn e), after_call (pending_call p (Raise e)) w).
Proof. unfold connect_ble_resume. by intros ->. Qed.

Lemma connect_ble_resume_ok addr p w :
  oracle (tick w) = Ok →
  connect_ble_resume addr p w =
    let w' := after_call (pending_call p Ok) w in
    match p with
    | InStopNotify _ => call_on_ble_client "disconnect" InDisconnect w'
    | InDisconnect _ => connect_ble_open addr w'
    | InConnect _ => call_on_ble_client "start_notify" InStartNotify w'
    | InStartNotify _ => (inr (Val true), w')
    end.
Proof. unfold connect_ble_resume. by intros ->. Qed.

Lemma connect_ble_open_run n addr w :
  connect_ble_run (S (S n)) addr (connect_ble_open addr w) = open_link addr w.
Proof.
  rewrite open_link_spec, connect_ble_open_spec, connect_ble_run_waiting.
  destruct (oracle (tick w)) as [|e] eqn:H0.
  - rewrite connect_ble_resume_ok by done.
    cbv zeta. unfold call_on_ble_client. cbn [pending_call].
    unfold after_call at 1 2. world_simpl.
    rewrite connect_ble_run_waiting.
    destruct (oracle (S (tick w))) as [|e] eqn:H1.
    + rewrite connect_ble_resume_ok by done. apply connect_ble_run_left.
    + rewrite (connect_ble_resume_raise _ _ _ e) by done.
      apply connect_ble_run_left.
  - rewrite (connect_ble_resume_raise _ _ _ e) by done.
    apply connect_ble_run_left.
Qed.

Lemma connect_ble_run_uninterrupted addr w :
  connect_ble_run 4 addr (connect_ble_begin addr w) = connect_ble addr w.
Proof.
  rewrite connect_ble_split. unfold bind. rewrite teardown_spec.
  unfold connect_ble_begin.
  destruct (ble_client w) as [c|] eqn:Hheld;
    [|apply connect_ble_open_run].
  destruct (link_is_up c w); [|apply connect_ble_open_run].
  unfold call_on_ble_client at 1. rewrite Hheld, connect_ble_run_waiting.
  destruct (oracle (tick w)) as [|e] eqn:H0.
  - rewrite connect_ble_resume_ok by done.
    cbv zeta. unfold call_on_ble_client. cbn [pending_call].
    unfold after_call at 1 2. world_simpl. rewrite Hheld.
    rewrite connect_ble_run_waiting.
    destruct (oracle (S (tick w))) as [|e] eqn:H1.
    + rewrite connect_ble_resume_ok by done. cbv zeta.
      apply connect_ble_open_run.
    + rewrite (connect_ble_resume_raise _ _ _ e) by done.
      apply connect_ble_run_left.
  - rewrite (connect_ble_resume_raise _ _ _ e) by done.
    apply connect_ble_run_left.
Qed.

Lemma notify_data_raised_run fuel data exc w :
  notify_data_run fuel data (notify_data_raised data exc w) =
    match exc with
    | DecodeError _ =>
        print ("Failed to decode: " +:+ hex data +:+
               " with error " +:+ str exc) w
    | _ => (Exn exc, w)
    end.
Proof. by destruct exc, fuel. Qed.

Lemma send_or_prune_spec ws w :
  send_or_prune ws w =
    match oracle (tick w) with
    | Ok => (Val tt, after_call (EvSendJson ws (current_data w) Ok) w)
    | Raise e =>
        websockets_remove ws
          (after_call (EvSendJson ws (current_data w) (Raise e)) w)
    end.
Proof.
  unfold send_or_prune, try_except, send_current_data, bind, gets, await.
  by destruct (oracle (tick w)).
Qed.

Lemma notify_data_next_run data xs : ∀ w,
  notify_data_run (length xs) data (notify_data_next xs w) =
    match for_each xs send_or_prune w with
    | (Exn exc, w') =>
        match exc with
        | DecodeError _ =>
            print ("Failed to decode: " +:+ hex data +:+
                   " with error " +:+ str exc) w'
        | _ => (Exn exc, w')
        end
    | r => r
    end.
Proof.
  induction xs as [|ws rest IH]; intros w; [done|].
  cbn [length notify_data_next notify_data_run fst snd for_each].
  unfold notify_data_resume. cbn [send_to sent still_to_send].
  unfold bind at 1. rewrite send_or_prune_spec.
  destruct (oracle (tick w)) as [|e]; [apply IH|].
  unfold websockets_remove.
  destruct (remove_first ws _) as [kept|]; [apply IH|].
  apply notify_data_raised_run.
Qed.

Lemma notify_data_run_uninterrupted data w :
  notify_data_run (length (connected_websockets w)) data
    (notify_data_begin data w) = notify_data data w.
Proof.
  destruct (decoded data) as [e|d] eqn:Hd.
  - rewrite (notify_data_not_decoded _ _ _ Hd).
    unfold decoded in Hd. unfold notify_data_begin.
    destruct (NotifyCharacteristic_decode data) as [e1|packet_data].
    + injection Hd as <-. rewrite notify_data_raised_run. by destruct e1.
    + destruct (PacketNotify_decode packet_data) as [e2|packet]; [|done].
      injection Hd as <-. rewrite notify_data_raised_run. by destruct e2.
  - rewrite (notify_data_decoded _ _ _ Hd).
    unfold decoded in Hd. unfold notify_data_begin.
    destruct (NotifyCharacteristic_decode data) as [e1|packet_data]; [done|].
    destruct (PacketNotify_decode packet_data) as [e2|packet]; [done|].
    injection Hd as <-.
    change (connected_websockets w) with
      (connected_websockets (set_current_data (Some (telemetry_of packet)) w))
      at 1.
    cbv zeta. rewrite notify_data_next_run.
    unfold try_except, broadcast, bind, gets.
    destruct (for_each _ _ _) as [[?|exc|] w']; [done| |done].
    by destruct exc.
Qed.

Lemma remove_first_absent x xs : x ∉ xs → remove_first x xs = None.
Proof.
  induction xs as [|y xs IH]; [done|].
  intros [Hne Hx]%not_elem_of_cons. cbn.
  rewrite decide_False by done. by rewrite IH.
Qed.

Lemma notify_data_begin_decoded data d w :
  decoded data = inr d →
  notify_data_begin data w =
    notify_data_next (connected_websockets w) (set_current_data (Some d) w).
Proof.
  unfold decoded, notify_data_begin. intros Hd.
  destruct (NotifyCharacteristic_decode data) as [?|packet_data]; [done|].
  destruct (PacketNotify_decode packet_data) as [?|packet]; [done|].
  by injection Hd as <-.
Qed.

(** The send fails for a websocket that is registered no more: line 52
    raises, and the callback is left with nothing sent to the rest of its
    snapshot. *)
Lemma notify_data_resume_absent data s w e :
  oracle (tick w) = Raise e →
  send_to s ∉ connected_websockets w →
  notify_data_resume data s w =
    (inr (Exn (PyException "list.remove(x): x not in list")),
     after_call (EvSendJson (send_to s) (sent s) (Raise e)) w).
Proof.
  intros Hsend Habsent. unfold notify_data_resume. rewrite Hsend.
  unfold websockets_remove, after_call. world_simpl.
  by rewrite remove_first_absent.
Qed.

(** C3: the code does not do what the claim says.  A broadcast waits in
    the send to its first subscriber [ws] when the peer of [ws] goes away.
    The session of [ws] is resumed first and takes [ws] out of the registry
    (lines 554-556); then the send fails and line 52 removes [ws] without
    looking whether it is still there: the [ValueError] is no
    [DecodeError], so it leaves the callback.  Nothing was sent to the
    other subscribers of the snapshot, all of them still registered. *)
Theorem broadcast_aborted_by_ended_session data d ws others w e :
  decoded data = inr d →
  connected_websockets w = ws :: others →
  ws ∉ others →
  oracle (tick w) = Raise WebSocketDisconnect →
  oracle (S (tick w)) = Raise e →
  let waiting :=
    {| send_to := ws; sent := Some d; still_to_send := others |} in
  let begun := notify_data_begin data w in
  let ended := keep_alive 1 ws begun.2 in
  let resumed := notify_data_resume data waiting ended.2 in
  begun.1 = inl waiting ∧
  ended.1 = Val tt ∧
  resumed.1 = inr (Exn (PyException "list.remove(x): x not in list")) ∧
  connected_websockets resumed.2 = others ∧
  trace resumed.2 =
    EvSendJson ws (Some d) (Raise e)
    :: EvReceiveText ws (Raise WebSocketDisconnect) :: trace w ∧
  ∀ x, x ∈ others → sends_to x (trace resumed.2) = sends_to x (trace w).
Proof.
  intros Hd Hreg Hfresh Hrecv Hsend waiting begun ended resumed.
  assert (begun = (inl waiting, set_current_data (Some d) w)) as Hbegun.
  { unfold begun. rewrite (notify_data_begin_decoded _ _ _ Hd), Hreg.
    reflexivity. }
  assert (ended =
          (Val tt,
           set_connected_websockets others
             (after_call (EvReceiveText ws (Raise WebSocketDisconnect))
                (set_current_data (Some d) w)))) as Hended.
  { unfold ended. rewrite Hbegun. cbn [snd].
    unfold keep_alive, try_except, receive_forever, bind, await.
    world_simpl. rewrite Hrecv.
    unfold discard_websocket, bind, gets, contains. world_simpl.
    rewrite Hreg, bool_decide_eq_true_2 by left.
    unfold websockets_remove. world_simpl. rewrite Hreg. cbn [remove_first].
    by rewrite decide_True. }
  assert (resumed =
          (inr (Exn (PyException "list.remove(x): x not in list")),
           after_call (EvSendJson ws (Some d) (Raise e)) ended.2)) as Hres.
  { unfold resumed. rewrite Hended. cbn [snd].
    by apply notify_data_resume_absent. }
  rewrite Hres, Hbegun. rewrite Hended. cbn [fst snd].
  unfold after_call. world_simpl. split_and!; try done.
  intros x Hx. cbn [sends_to]. rewrite decide_False; [done|].
  intros ->. done.
Qed.

(** Connects served one after another are steps of the serial server. *)
Lemma connect_endpoint_world addr w :
  (connect_endpoint addr w).2 = (connect_ble addr w).2.
Proof.
  rewrite connect_endpoint_spec.
  destruct (connect_ble addr w) as [[b|e|] w']; [done| |done].
  by destruct (is_Exception e).
Qed.

Lemma resumes_run n addr : ∀ pool st w,
  ∃ st',
    foldl (λ s t, turn t s) (pool ++ [{| requested := addr; stands := st |}], w)
      (replicate n (Resumes (length pool))) =
    (pool ++ [{| requested := addr; stands := st' |}],
     (connect_ble_run n addr (st, w)).2).
Proof.
  induction n as [|n IH]; intros pool st w.
  - exists st. by destruct st.
  - cbn [replicate foldl]. unfold turn at 2. cbn [fst snd].
    rewrite lookup_app_r, Nat.sub_diag by done. cbn [lookup list_lookup].
    destruct st as [p|r].
    + rewrite connect_ble_run_waiting.
      destruct (connect_ble_resume addr p w) as [st1 w1]. cbn [fst snd].
      replace (<[length pool:=_]> (pool ++ _))
        with (pool ++ [{| requested := addr; stands := st1 |}]).
      * apply IH.
      * rewrite insert_app_r_alt, Nat.sub_diag by done. reflexivity.
    + destruct (IH pool (inr r) w) as [st' Hrun]. exists st'.
      rewrite Hrun. by rewrite !connect_ble_run_left.
Qed.

Lemma one_after_another_steps addrs : ∀ pool w,
  rtc step w
    (foldl (λ s t, turn t s) (pool, w)
       (one_after_another_from (length pool) addrs)).2.
Proof.
  induction addrs as [|addr rest IH]; intros pool w; [done|].
  cbn [one_after_another_from foldl]. rewrite foldl_app.
  unfold turn at 3. cbn [fst snd].
  destruct (resumes_run 4 addr pool (connect_ble_begin addr w).1
              (connect_ble_begin addr w).2) as [st' ->].
  rewrite <- surjective_pairing, connect_ble_run_uninterrupted.
  eapply rtc_l.
  { apply (step_connect addr). }
  rewrite connect_endpoint_world.
  specialize (IH (pool ++ [{| requested := addr; stands := st' |}])
                 (connect_ble addr w).2).
  rewrite length_app, Nat.add_1_r in IH. exact IH.
Qed.

(** C2 (as amended). On a server that serves its requests one after
    another, whatever requests, notifications and lost links it has seen,
    the transport never had more than one live subscription; so it is
    after any number of connects whose turns do not overlap, each call
    resumed to its end before the next arrives.  A connect that is served
    with nothing else in between (its turns resumed one after the other,
    which is [connect_ble]) and that is issued while the held client is
    connected first asks it to stop notifying, then to disconnect, and
    makes the new client only after both have returned, when the old one
    is down and unsubscribed. *)
Theorem one_live_subscription :
  (∀ w, rtc step initial_world w → always at_most_one_live (trace w)) ∧
  (∀ w addrs,
     rtc step initial_world w →
     always at_most_one_live
       (trace (overlapped (one_after_another addrs) w).2)) ∧
  (∀ addr w,
     connect_ble_run 4 addr (connect_ble_begin addr w) = connect_ble addr w) ∧
  (∀ addr w a,
     ble_client w = Some a →
     link_is_up a w = true →
     let w' := (connect_ble addr w).2 in
     let b := length (transport_of (trace w)) in
     let torn_down := EvDisconnect a Ok :: EvStopNotify a Ok :: trace w in
     (∃ e, trace w' = EvStopNotify a (Raise e) :: trace w) ∨
     (∃ e, trace w' = EvDisconnect a (Raise e) :: EvStopNotify a Ok :: trace w) ∨
     (∃ opening,
        trace w' = opening ++ EvNewClient addr 20 :: torn_down ∧
        Forall (λ e, ∃ o, e = EvConnect b o ∨ e = EvStartNotify b o) opening ∧
        ∃ old, transport_of torn_down !! a = Some old ∧
               is_connected old = false ∧ notifying old = false)).
Proof.
  assert (∀ w, rtc step initial_world w → always at_most_one_live (trace w))
    as Hserial.
  { intros w Hreach.
    assert (link_invariant w) as [Halw _]; [|done].
    apply (rtc_ind_r (R:=step) link_invariant initial_world); [| |done].
    + apply initial_world_link_invariant.
    + intros w1 w2 _ Hstep IH. by eapply step_link_invariant. }
  split_and!.
  - exact Hserial.
  - intros w addrs Hreach. apply Hserial. etrans; [exact Hreach|].
    apply (one_after_another_steps addrs []).
  - apply connect_ble_run_uninterrupted.
  - intros addr w a Hheld Hup w' b torn_down. subst w'.
    rewrite connect_ble_split. unfold bind.
    rewrite teardown_spec, Hheld, Hup.
    destruct (oracle (tick w)) as [|e]; [|left; by exists e].
    destruct (oracle (S (tick w))) as [|e]; [|right; left; by exists e].
    right; right. rewrite open_link_spec. unfold after_call; world_simpl.
    assert (length (transport_of (EvDisconnect a Ok :: EvStopNotify a Ok
                                  :: trace w)) = b) as ->
      by (cbn; by rewrite !length_alter).
    assert (∃ old, transport_of torn_down !! a = Some old ∧
                   is_connected old = false ∧ notifying old = false) as Hold.
    { unfold link_is_up in Hup.
      destruct (transport_of (trace w) !! a) as [cl|] eqn:Ha; [|done].
      exists (link_down (set_notifying false cl)). split; [|done].
      change (transport_of torn_down)
        with (alter link_down a
                (alter (set_notifying false) a (transport_of (trace w)))).
      by rewrite !list_lookup_alter_eq, Ha. }
    destruct (oracle (S (S (tick w)))) as [|e].
    + destruct (oracle (S (S (S (tick w))))) as [|e]; world_simpl.
      * exists [EvStartNotify b Ok; EvConnect b Ok].
        split_and!; [done| |done]. repeat constructor; eexists; eauto.
      * exists [EvStartNotify b (Raise e); EvConnect b Ok].
        split_and!; [done| |done]. repeat constructor; eexists; eauto.
    + exists [EvConnect b (Raise e)].
      split_and!; [done| |done]. repeat constructor; eexists; eauto.
Qed.

(** * Further properties *)

(** ** The scanner's busy flag *)

#[local] Instance named_hub_dec ad : Decision (named_hub ad).
Proof. unfold named_hub. apply _. Defined.

(** What a scan that is not refused does, by the answers of the three
    awaited calls. *)
Lemma scan_devices_cases heard w :
  scanning w = false →
  let w0 := set_discovered_devices [] (set_scanning true w) in
  let w1 := set_discovered_devices (collect ∅ heard)
              (after_call (EvScannerStart Ok) w0) in
  scan_devices heard w =
    match oracle (tick w) with
    | Raise e => scan_failed e (after_call (EvScannerStart (Raise e)) w0)
    | Ok =>
        match oracle (S (tick w)) with
        | Raise e => scan_failed e (after_call (EvSleep 5 (Raise e)) w1)
        | Ok =>
            match oracle (S (S (tick w))) with
            | Raise e =>
                scan_failed e (after_call (EvScannerStop (Raise e))
                                 (after_call (EvSleep 5 Ok) w1))
            | Ok =>
                (Val (ScanSuccess (collect ∅ heard)),
                 set_scanning false
                   (after_call (EvScannerStop Ok) (after_call (EvSleep 5 Ok) w1)))
            end
        end
    end.
Proof.
  intros Hidle w0 w1.
  unfold scan_devices, bind at 1, gets at 1. rewrite Hidle.
  unfold bind at 1, modify at 1. unfold bind at 1, modify at 1. fold w0.
  unfold try_except, bind at 1, await at 1. change (tick w0) with (tick w).
  destruct (oracle (tick w)) as [|e].
  2:{ unfold scan_failed, after_call. destruct (is_Exception e); [|done].
      unfold bind, modify, ret. done. }
  unfold bind at 1.
  match goal with |- context [scanner_run ∅ heard ?w'] =>
    destruct (scanner_run_collect heard ∅ w') as [found' ->] end.
  change (set_discovered_devices _ _) with w1 at 1.
  unfold bind at 1, await at 1. change (tick w1) with (S (tick w)).
  destruct (oracle (S (tick w))) as [|e].
  2:{ unfold scan_failed, after_call. destruct (is_Exception e); [|done].
      unfold bind, modify, ret. done. }
  unfold bind at 1, await at 1.
  change (tick (set_tick ?n _)) with n.
  destruct (oracle (S (S (tick w)))) as [|e].
  2:{ unfold scan_failed, after_call. destruct (is_Exception e); [|done].
      unfold bind, modify, ret. done. }
  reflexivity.
Qed.

(** X1. A scan that is not refused always answers, success or failure,
    with the busy flag down again; the one way out without an answer is an
    exception that is no [Exception], and that one leaves the flag up. *)
Theorem scan_devices_releases_flag heard w :
  scanning w = false →
  match (scan_devices heard w).1 with
  | Val _ => scanning (scan_devices heard w).2 = false
  | Exn e => is_Exception e = false ∧ scanning (scan_devices heard w).2 = true
  | Suspended => False
  end.
Proof.
  intros Hidle. rewrite (scan_devices_cases heard w Hidle).
  unfold scan_failed.
  destruct (oracle (tick w)) as [|e];
    [destruct (oracle (S (tick w))) as [|e];
       [destruct (oracle (S (S (tick w)))) as [|e]|]|];
    try done; by destruct (is_Exception e) eqn:He.
Qed.

(** X2. After a scan that ended without an answer every later scan is
    refused, whatever it would hear: it returns "Scan already in progress"
    and asks nothing of the scanner. *)
Theorem unanswered_scan_blocks_later_scans heard heard' w e :
  scanning w = false →
  (scan_devices heard w).1 = Exn e →
  scan_devices heard' (scan_devices heard w).2 =
    (Val (Failure "Scan already in progress"), (scan_devices heard w).2).
Proof.
  intros Hidle Hexn.
  assert (scanning (scan_devices heard w).2 = true) as Hbusy.
  { revert Hexn. rewrite (scan_devices_cases heard w Hidle). unfold scan_failed.
    destruct (oracle (tick w)) as [|e0];
      [destruct (oracle (S (tick w))) as [|e0];
         [destruct (oracle (S (S (tick w)))) as [|e0]|]|];
      try done; by destruct (is_Exception e0). }
  unfold scan_devices at 1, bind at 1, gets at 1. by rewrite Hbusy.
Qed.

(** The callback does nothing for an advertisement of another name. *)
Lemma scanner_run_named_hub heard : ∀ found w,
  scanner_run found (filter named_hub heard) w = scanner_run found heard w.
Proof.
  induction heard as [|[device advertisement] rest IH]; intros found w; [done|].
  destruct (decide (named_hub (device, advertisement))) as [Hhub|Hother].
  - rewrite filter_cons_True by done. cbn [scanner_run].
    unfold bind. destruct (detection_callback _ _ _ w) as [[found'| |] w'];
      [apply IH|done..].
  - rewrite filter_cons_False by done. cbn [scanner_run].
    unfold bind at 1, detection_callback. unfold named_hub in Hother.
    cbn [fst] in Hother.
    rewrite (bool_decide_eq_false_2 (dev_name device = _)) by done.
    rewrite andb_false_r. unfold ret at 1. apply IH.
Qed.

(** X3. Advertisements under any other name change nothing in a scan:
    they are not listed, and they do not keep a hub heard later from the
    same address out of the list. *)
Theorem scan_ignores_other_names heard w :
  scan_devices (filter named_hub heard) w = scan_devices heard w.
Proof.
  unfold scan_devices, try_except, bind, gets, modify, await.
  destruct (scanning w); [done|]. world_simpl.
  destruct (oracle (tick w)); [|done].
  by rewrite scanner_run_named_hub.
Qed.

(** ** The link *)

Lemma reachable_link_invariant w :
  rtc step initial_world w → link_invariant w.
Proof.
  intros Hreach.
  apply (rtc_ind_r (R:=step) link_invariant initial_world); [| |done].
  - apply initial_world_link_invariant.
  - intros w1 w2 _ Hstep IH. by eapply step_link_invariant.
Qed.

Lemma link_down_is_down (c : nat) (t : list BleakClient) :
  match alter link_down c t !! c with
  | Some cl => is_connected cl
  | None => false
  end = false.
Proof. rewrite list_lookup_alter_eq. by destruct (t !! c). Qed.

(** X4. Where only the held client can have a live subscription and no
    more than one was ever live (so it is after requests served one after
    another, [reachable_link_invariant]; not so after connects that
    overlapped), a shutdown served with nothing else in between that
    returns leaves no live subscription behind, and a second shutdown after
    it asks nothing of the transport. *)
Theorem shutdown_leaves_no_subscription w :
  link_invariant w →
  (shutdown_event w).1 = Val tt →
  nobody_live (transport_of (trace (shutdown_event w).2)) ∧
  shutdown_event (shutdown_event w).2 = (Val tt, (shutdown_event w).2).
Proof.
  intros Hreach Hval. split.
  - pose proof (teardown_link_invariant w Hreach) as Htear.
    unfold teardown in Htear.
    destruct (shutdown_event w) as [[[]|e|] w1]; [|done..].
    by destruct Htear.
  - revert Hval. change shutdown_event with teardown.
    rewrite (teardown_spec w).
    destruct (ble_client w) as [c|] eqn:Hheld.
    2:{ intros _. cbn [snd]. by rewrite teardown_spec, Hheld. }
    destruct (link_is_up c w) eqn:Hup.
    2:{ intros _. cbn [snd]. by rewrite teardown_spec, Hheld, Hup. }
    destruct (oracle (tick w)) as [|e]; [|done].
    destruct (oracle (S (tick w))) as [|e]; [|done].
    intros _. cbn [snd]. rewrite teardown_spec.
    unfold after_call at 1 2. world_simpl. rewrite Hheld.
    unfold link_is_up, after_call. world_simpl.
    change (transport_of (EvDisconnect c Ok :: ?tr))
      with (alter link_down c (transport_of tr)).
    by rewrite link_down_is_down.
Qed.

(** X5. Where only the held client can have a live subscription and no
    more than one was ever live, when a connect served with nothing else in
    between is answered with success, the client held from then on is the
    one made for the requested address, it is connected and subscribed, and
    no other client has a live subscription. *)
Theorem successful_connect_is_live addr w w' :
  link_invariant w →
  connect_endpoint addr w = (Val (ConnectSuccess addr), w') →
  ∃ c,
    ble_client w' = Some c ∧
    transport_of (trace w') !! c =
      Some {| address := addr; timeout := 20;
              is_connected := true; notifying := true |} ∧
    ∀ i cl, transport_of (trace w') !! i = Some cl → live cl = true → i = c.
Proof.
  intros Hreach Hrun.
  pose proof (connect_endpoint_link_invariant addr w Hreach) as [_ Hheld].
  rewrite Hrun in Hheld. cbn [snd] in Hheld.
  rewrite connect_endpoint_spec, connect_ble_split in Hrun.
  unfold bind in Hrun.
  destruct (teardown w) as [[[]|e|] w1];
    [|by destruct (is_Exception e)|done].
  rewrite open_link_spec in Hrun.
  destruct (oracle (tick w1)) as [|e]; [|by destruct (is_Exception e)].
  destruct (oracle (S (tick w1))) as [|e]; [|by destruct (is_Exception e)].
  injection Hrun as <-.
  exists (length (transport_of (trace w1))).
  unfold after_call in *. world_simpl. split; [done|]. split.
  - change (transport_of (EvStartNotify ?c Ok :: EvConnect ?c Ok :: ?tr))
      with (alter (set_notifying true) c
              (alter (set_is_connected true) c (transport_of tr))).
    by rewrite !list_lookup_alter_eq, transport_new_client.
  - intros i cl Hi Hlive. specialize (Hheld i cl Hi Hlive). congruence.
Qed.

(** X6. After the radio lost the link of the held client, a connect does
    not ask that client to stop notifying or to disconnect: the first thing
    it does is to make the new client. *)
Theorem reconnect_after_lost_link addr w c :
  ble_client w = Some c →
  let lost := set_trace (EvLinkLost c :: trace w) w in
  let b := length (transport_of (trace w)) in
  ∃ opening,
    trace (connect_ble addr lost).2 =
      opening ++ EvNewClient addr 20 :: EvLinkLost c :: trace w ∧
    Forall (λ e, ∃ o, e = EvConnect b o ∨ e = EvStartNotify b o) opening.
Proof.
  intros Hheld lost b.
  rewrite connect_ble_split. unfold bind.
  rewrite teardown_spec. change (ble_client lost) with (ble_client w).
  rewrite Hheld.
  assert (link_is_up c lost = false) as ->.
  { unfold link_is_up, lost. world_simpl.
    change (transport_of (EvLinkLost c :: ?tr))
      with (alter link_down c (transport_of tr)).
    apply link_down_is_down. }
  rewrite open_link_spec.
  assert (length (transport_of (trace lost)) = b) as ->.
  { unfold lost. world_simpl.
    change (transport_of (EvLinkLost c :: ?tr))
      with (alter link_down c (transport_of tr)).
    by rewrite length_alter. }
  change (tick lost) with (tick w). change (trace lost) with (EvLinkLost c :: trace w).
  unfold after_call. world_simpl.
  destruct (oracle (tick w)) as [|e].
  - destruct (oracle (S (tick w))) as [|e]; world_simpl.
    + exists [EvStartNotify b Ok; EvConnect b Ok].
      split; [done|]. repeat constructor; eexists; eauto.
    + exists [EvStartNotify b (Raise e); EvConnect b Ok].
      split; [done|]. repeat constructor; eexists; eauto.
  - exists [EvConnect b (Raise e)].
    split; [done|]. repeat constructor; eexists; eauto.
Qed.

(** X7. The connect endpoint answers every request: with success for the
    requested address, or with a failure; nothing passes through it but an
    exception that is no [Exception], and it never stays suspended. *)
Theorem connect_endpoint_answers addr w :
  match (connect_endpoint addr w).1 with
  | Val (ConnectSuccess a) => a = addr
  | Val (Failure _) => True
  | Val (ScanSuccess _) => False
  | Exn e => is_Exception e = false
  | Suspended => False
  end.
Proof.
  rewrite connect_endpoint_spec, connect_ble_split. unfold bind.
  rewrite teardown_spec.
  assert (∀ w1,
    match (let (r, w') := open_link addr w1 in
           match r with
           | Val _ => (Val (ConnectSuccess addr), w')
           | Exn e => if is_Exception e then (Val (Failure (str e)), w')
                      else (Exn e, w')
           | Suspended => (Suspended, w')
           end).1 with
    | Val (ConnectSuccess a) => a = addr
    | Val (Failure _) => True
    | Val (ScanSuccess _) => False
    | Exn e => is_Exception e = false
    | Suspended => False
    end) as Hopen.
  { intros w1. rewrite open_link_spec.
    destruct (oracle (tick w1)) as [|e];
      [destruct (oracle (S (tick w1))) as [|e]|]; try done;
      by destruct (is_Exception e) eqn:He. }
  destruct (ble_client w) as [c|]; [|apply Hopen].
  destruct (link_is_up c w); [|apply Hopen].
  destruct (oracle (tick w)) as [|e];
    [destruct (oracle (S (tick w))) as [|e]|]; try apply Hopen;
    by destruct (is_Exception e) eqn:He.
Qed.

(** ** The hub *)

(** X8. Only [DecodeError] is absorbed: any other exception of a decoder
    passes through the callback to the transport, and then nothing is
    printed, cached or sent. *)
Theorem other_decoder_exception_propagates data e w :
  decoded data = inl e →
  (∀ msg, e ≠ DecodeError msg) →
  notify_data data w = (Exn e, w).
Proof.
  intros Hd Hother. rewrite (notify_data_not_decoded _ _ _ Hd).
  destruct e; try done. by destruct (Hother msg).
Qed.

(** The loop over a snapshot whose members are all registered: one send
    for each, whether or not earlier sends failed. *)
Lemma for_each_send_or_prune_trace xs : ∀ w,
  xs ⊆+ connected_websockets w →
  ∃ r w',
    for_each xs send_or_prune w = (r, w') ∧
    trace w' = send_events (tick w) (current_data w) xs ++ trace w ∧
    tick w' = tick w + length xs.
Proof.
  induction xs as [|x xs IH]; intros w Hsub.
  { eexists _, _. split; [done|]. cbn. by rewrite Nat.add_0_r. }
  cbn [for_each send_events length].
  unfold bind at 1, send_or_prune at 1, try_except, send_current_data,
    bind at 1, gets at 1, await.
  destruct (oracle (tick w)) as [|e].
  - edestruct IH as (r & w' & -> & Htr & Htick).
    { world_simpl. etrans; [|exact Hsub]. by apply submseteq_cons. }
    world_simpl. eexists _, _. split; [done|].
    rewrite Htr, Htick, <- app_assoc. split; [done|lia].
  - unfold websockets_remove. world_simpl.
    assert (x ∈ connected_websockets w) as Hin.
    { apply submseteq_cons_l in Hsub as (k & Hperm & _).
      rewrite Hperm. left. }
    destruct (remove_first_elem_of _ _ Hin) as (kept & rest & Hreg & _ & ->).
    edestruct IH as (r & w' & -> & Htr & Htick).
    { world_simpl. rewrite Hreg, <- Permutation_middle in Hsub.
      by apply (submseteq_app_inv_l _ _ [x]). }
    world_simpl. eexists _, _. split; [done|].
    rewrite Htr, Htick, <- app_assoc. split; [done|lia].
Qed.

Lemma send_events_in_order payload xs : ∀ t,
  send_events t payload xs = reverse (sends_in_order t payload xs).
Proof.
  unfold sends_in_order.
  induction xs as [|x xs IH]; intros t; [done|].
  cbn [send_events]. rewrite imap_cons, reverse_cons, IH, Nat.add_0_r.
  do 2 f_equal. apply imap_ext. intros i ws _. cbn. do 2 f_equal. lia.
Qed.

(** X9. A notification that decodes, its callback resumed with nothing
    else in between, makes exactly one send to every websocket registered
    when it arrives, in the order of registration, the failure of one send
    not keeping the next from being made; these sends are all the callback
    asks of the outside. *)
Theorem broadcast_in_registration_order data d w :
  decoded data = inr d →
  trace (notify_data_run (length (connected_websockets w)) data
           (notify_data_begin data w)).2 =
    reverse (sends_in_order (tick w) (Some d) (connected_websockets w))
    ++ trace w.
Proof.
  intros Hd. rewrite notify_data_run_uninterrupted.
  rewrite (notify_data_decoded _ _ _ Hd).
  unfold try_except, broadcast, bind at 1, gets at 1.
  pose proof (for_each_send_or_prune_returns
                (connected_websockets (set_current_data (Some d) w))
                (set_current_data (Some d) w)) as Hval.
  destruct (for_each_send_or_prune_trace
              (connected_websockets (set_current_data (Some d) w))
              (set_current_data (Some d) w)) as (r & w' & Hrun & Htr & _);
    [done|].
  rewrite Hrun in Hval |- *. cbn in Hval, Htr. rewrite Hval by done.
  cbn [snd]. by rewrite Htr, send_events_in_order.
Qed.

(** X16. A broadcast that is resumed with nothing else in between returns
    normally whatever the sends do.  Over a registry of distinct
    subscribers it sends the new record to every one of them, and a
    subscriber stays registered exactly when its own send returned: the
    one whose send failed is gone and the others are still there, each
    having been sent the record. *)
Theorem broadcast_prunes_failed_subscriber data d w :
  decoded data = inr d →
  let run :=
    notify_data_run (length (connected_websockets w)) data
      (notify_data_begin data w) in
  run.1 = Val tt ∧
  (NoDup (connected_websockets w) →
   (∀ i ws, connected_websockets w !! i = Some ws →
      EvSendJson ws (Some d) (oracle (tick w + i)) ∈ trace run.2 ∧
      (ws ∈ connected_websockets run.2 ↔ oracle (tick w + i) = Ok)) ∧
   connected_websockets run.2 `sublist_of` connected_websockets w).
Proof.
  intros Hd run. subst run. rewrite notify_data_run_uninterrupted. split.
  - rewrite (notify_data_decoded _ _ _ Hd).
    unfold try_except, broadcast, bind at 1, gets at 1.
    pose proof (for_each_send_or_prune_returns
                  (connected_websockets (set_current_data (Some d) w))
                  (set_current_data (Some d) w)) as Hval.
    destruct (for_each _ _ _) as [r w']. cbn in Hval. by rewrite Hval.
  - intros Hnodup. rewrite (notify_data_distinct _ _ _ Hd Hnodup).
    cbn. split; [|apply survivors_sublist].
    intros i ws Hi. split.
    + apply elem_of_app. left. by apply elem_of_send_events.
    + rewrite elem_of_survivors. split; [|by exists i].
      intros (j & Hj & Hok).
      by rewrite (NoDup_lookup _ _ _ _ Hnodup Hi Hj).
Qed.


(** X11. A session whose [receive_text] raises something that is no
    [Exception] (a cancellation) ends with that exception and leaves its
    websocket in the registry. *)
Theorem cancelled_session_stays_registered fuel ws k msg w :
  k < fuel →
  (∀ i, i < k → oracle (tick w + i) = Ok) →
  oracle (tick w + k) = Raise (PyBaseException msg) →
  ∃ w',
    keep_alive fuel ws w = (Exn (PyBaseException msg), w') ∧
    connected_websockets w' = connected_websockets w ∧
    stdout w' = stdout w.
Proof.
  intros Hfuel Hok Hraise. unfold keep_alive, try_except.
  destruct (receive_forever_raises ws _ k fuel w Hfuel Hok Hraise)
    as (texts & -> & _).
  cbn [is_Exception]. by eexists.
Qed.

(** ** The registry and the cache across requests *)

#[local] Instance adds_no_subscriber_preorder : PreOrder adds_no_subscriber.
Proof.
  split.
  - intros w. unfold adds_no_subscriber. reflexivity.
  - intros w1 w2 w3 H1 H2. unfold adds_no_subscriber. by etrans.
Qed.

#[local] Instance tidy_preorder : PreOrder tidy.
Proof.
  split.
  - intros w. split; reflexivity.
  - intros w1 w2 w3 [Hc1 Hr1] [Hc2 Hr2]. split; [congruence|by etrans].
Qed.

Lemma tidy_fields w w' :
  current_data w' = current_data w →
  connected_websockets w' = connected_websockets w →
  tidy w w'.
Proof. intros Hc Hr. split; [done|by rewrite Hr]. Qed.

Lemma discard_websocket_tidy ws : preserves tidy (discard_websocket ws).
Proof.
  intros w. destruct (discard_websocket_spec ws w) as (rest & -> & Hsub & _).
  by split.
Qed.

Lemma keep_alive_tidy fuel ws : preserves tidy (keep_alive fuel ws).
Proof.
  unfold keep_alive. pres preserves_try_except.
  - induction fuel as [|fuel IH]; cbn; [pres preserves_suspended|].
    pres preserves_bind; [|by intros _].
    pres preserves_await. intros w o. by apply tidy_fields.
  - intros e h He.
    assert (h = discard_websocket ws ∨
            h = (print ("WebSocket error: " +:+ str e) ;; discard_websocket ws))
      as [->| ->].
    { destruct e; cbn in He; try done; injection He as <-; auto. }
    + apply discard_websocket_tidy.
    + pres preserves_bind; [|intros _; apply discard_websocket_tidy].
      pres preserves_modify. intros w. by apply tidy_fields.
Qed.

Lemma shutdown_event_tidy w : tidy w (shutdown_event w).2.
Proof.
  change shutdown_event with teardown. rewrite teardown_spec.
  destruct (ble_client w) as [c|]; [|done].
  destruct (link_is_up c w); [|done].
  destruct (oracle (tick w)); [|by apply tidy_fields].
  destruct (oracle (S (tick w))); by apply tidy_fields.
Qed.

Lemma connect_endpoint_tidy addr w : tidy w (connect_endpoint addr w).2.
Proof.
  assert (tidy w (connect_ble addr w).2) as Hble.
  { rewrite connect_ble_split. unfold bind.
    pose proof (shutdown_event_tidy w) as Htear. unfold teardown.
    destruct (shutdown_event w) as [[[]|e|] w1]; cbn [snd] in *; [|done..].
    etrans; [exact Htear|]. rewrite open_link_spec.
    destruct (oracle (tick w1)); [|by apply tidy_fields].
    destruct (oracle (S (tick w1))); by apply tidy_fields. }
  rewrite connect_endpoint_spec.
  destruct (connect_ble addr w) as [[b|e|] w']; [done| |done].
  by destruct (is_Exception e).
Qed.

Lemma scan_devices_tidy heard w : tidy w (scan_devices heard w).2.
Proof.
  destruct (scanning w) eqn:Hbusy.
  - unfold scan_devices, bind, gets. by rewrite Hbusy.
  - rewrite (scan_devices_cases heard w Hbusy). unfold scan_failed.
    destruct (oracle (tick w)) as [|e];
      [destruct (oracle (S (tick w))) as [|e];
         [destruct (oracle (S (S (tick w)))) as [|e]|]|];
      try (by apply tidy_fields); destruct (is_Exception e);
      by apply tidy_fields.
Qed.

(** The handler of a websocket registers that websocket, at the end, and
    nobody else. *)
Lemma websocket_endpoint_registry fuel ws w :
  current_data (websocket_endpoint fuel ws w).2 = current_data w ∧
  connected_websockets (websocket_endpoint fuel ws w).2
    `sublist_of` connected_websockets w ++ [ws].
Proof.
  destruct (websocket_endpoint fuel ws w) as [r w'] eqn:Hrun. cbn [snd].
  revert Hrun. unfold websocket_endpoint, bind at 1, await at 1.
  destruct (oracle (tick w)) as [|e].
  2:{ intros [= _ <-]. split; [done|]. world_simpl. by apply sublist_inserts_r. }
  unfold bind at 1, modify at 1.
  match goal with |- (bind (gets current_data) ?k) ?w1 = _ → _ =>
    assert (tidy w1 ((bind (gets current_data) k) w1).2) as Htidy end.
  { pres preserves_bind; [pres preserves_gets|intros cached].
    pres preserves_bind; [|intros _; apply keep_alive_tidy].
    destruct cached; [|pres preserves_ret].
    unfold send_current_data.
    pres preserves_bind; [pres preserves_gets|intros payload].
    pres preserves_await. intros w1 o. by apply tidy_fields. }
  intros Hrun. rewrite Hrun in Htidy. by destruct Htidy.
Qed.

Lemma adds_no_subscriber_same w w' :
  connected_websockets w' = connected_websockets w → adds_no_subscriber w w'.
Proof. unfold adds_no_subscriber. by intros ->. Qed.

Lemma notify_data_adds_no_subscriber data :
  preserves adds_no_subscriber (notify_data data).
Proof.
  unfold notify_data. pres preserves_try_except.
  - pres preserves_bind; [pres preserves_call|intros packet_data].
    pres preserves_bind; [pres preserves_call|intros packet].
    pres preserves_bind.
    { pres preserves_modify. intros w. by apply adds_no_subscriber_same. }
    intros _. pres preserves_bind; [pres preserves_gets|intros snapshot].
    pres preserves_for_each. intros ws _. pres preserves_try_except.
    + unfold send_current_data.
      pres preserves_bind; [pres preserves_gets|intros payload].
      pres preserves_await. intros w o. by apply adds_no_subscriber_same.
    + intros e h [= <-]. pres preserves_websockets_remove.
      by intros w rest Hsub.
  - intros e h He. destruct e; try done. injection He as <-.
    pres preserves_modify. intros w. by apply adds_no_subscriber_same.
Qed.

Lemma shutdown_event_registry w :
  connected_websockets (shutdown_event w).2 = connected_websockets w.
Proof.
  change shutdown_event with teardown. rewrite teardown_spec.
  destruct (ble_client w) as [c|]; [|done].
  destruct (link_is_up c w); [|done].
  destruct (oracle (tick w)); [|done].
  by destruct (oracle (S (tick w))).
Qed.

Lemma connect_endpoint_registry addr w :
  connected_websockets (connect_endpoint addr w).2 = connected_websockets w.
Proof.
  assert (connected_websockets (connect_ble addr w).2 = connected_websockets w)
    as Hble.
  { rewrite connect_ble_split. unfold bind.
    pose proof (shutdown_event_registry w) as Htear. unfold teardown.
    destruct (shutdown_event w) as [[[]|e|] w1]; cbn [snd] in *; [|done..].
    rewrite <- Htear, open_link_spec.
    destruct (oracle (tick w1)); [|done].
    by destruct (oracle (S (tick w1))). }
  rewrite connect_endpoint_spec.
  destruct (connect_ble addr w) as [[b|e|] w']; [done| |done].
  by destruct (is_Exception e).
Qed.

Lemma scan_devices_registry heard w :
  connected_websockets (scan_devices heard w).2 = connected_websockets w.
Proof.
  destruct (scanning w) eqn:Hbusy.
  - unfold scan_devices, bind, gets. by rewrite Hbusy.
  - rewrite (scan_devices_cases heard w Hbusy). unfold scan_failed.
    destruct (oracle (tick w)) as [|e];
      [destruct (oracle (S (tick w))) as [|e];
         [destruct (oracle (S (S (tick w)))) as [|e]|]|];
      try done; by destruct (is_Exception e).
Qed.

Lemma connect_ble_open_registry addr w :
  connected_websockets (connect_ble_open addr w).2 = connected_websockets w.
Proof. by rewrite connect_ble_open_spec. Qed.

Lemma call_on_ble_client_registry attr p w :
  connected_websockets (call_on_ble_client attr p w).2 = connected_websockets w.
Proof. unfold call_on_ble_client. by destruct (ble_client w). Qed.

Lemma connect_ble_begin_registry addr w :
  connected_websockets (connect_ble_begin addr w).2 = connected_websockets w.
Proof.
  unfold connect_ble_begin.
  destruct (ble_client w) as [c|] eqn:Hheld;
    [|apply connect_ble_open_registry].
  destruct (link_is_up c w); [|apply connect_ble_open_registry].
  apply call_on_ble_client_registry.
Qed.

Lemma connect_ble_resume_registry addr p w :
  connected_websockets (connect_ble_resume addr p w).2 = connected_websockets w.
Proof.
  unfold connect_ble_resume. destruct (oracle (tick w)); [|done].
  destruct p;
    by rewrite ?call_on_ble_client_registry, ?connect_ble_open_registry.
Qed.

Lemma notify_data_raised_registry data exc w :
  connected_websockets (notify_data_raised data exc w).2 = connected_websockets w.
Proof. by destruct exc. Qed.

Lemma notify_data_next_registry xs w :
  connected_websockets (notify_data_next xs w).2 = connected_websockets w.
Proof. by destruct xs. Qed.

Lemma notify_data_begin_registry data w :
  connected_websockets (notify_data_begin data w).2 = connected_websockets w.
Proof.
  unfold notify_data_begin.
  destruct (NotifyCharacteristic_decode data) as [?|packet_data];
    [apply notify_data_raised_registry|].
  destruct (PacketNotify_decode packet_data) as [?|packet];
    [apply notify_data_raised_registry|].
  cbv zeta. by rewrite notify_data_next_registry.
Qed.

Lemma notify_data_resume_registry data s w :
  connected_websockets (notify_data_resume data s w).2
    `sublist_of` connected_websockets w.
Proof.
  unfold notify_data_resume.
  destruct (oracle (tick w)); [by rewrite notify_data_next_registry|].
  unfold websockets_remove, after_call. world_simpl.
  destruct (remove_first _ _) as [kept|] eqn:Hrm.
  - rewrite notify_data_next_registry. world_simpl.
    by eapply remove_first_sublist.
  - by rewrite notify_data_raised_registry.
Qed.

(** X12. The registry gains a member in one place only, where the handler
    of a websocket appends its own websocket (line 544): a connect, the
    shutdown and a scan leave the registry as it is, each piece of
    [connect_ble] between two awaits too; a notification, each piece of its
    callback between two sends, and a session that goes on or ends leave in
    it only websockets that were there, in their order.  So as long as no
    websocket is attached that is registered already, the registry holds
    no websocket twice. *)
Theorem registry_stays_distinct w :
  (∀ addr,
     connected_websockets (connect_endpoint addr w).2 = connected_websockets w) ∧
  connected_websockets (shutdown_event w).2 = connected_websockets w ∧
  (∀ heard,
     connected_websockets (scan_devices heard w).2 = connected_websockets w) ∧
  (∀ addr,
     connected_websockets (connect_ble_begin addr w).2 = connected_websockets w) ∧
  (∀ addr p,
     connected_websockets (connect_ble_resume addr p w).2 =
       connected_websockets w) ∧
  (∀ data,
     connected_websockets (notify_data data w).2
       `sublist_of` connected_websockets w) ∧
  (∀ data,
     connected_websockets (notify_data_begin data w).2 = connected_websockets w) ∧
  (∀ data s,
     connected_websockets (notify_data_resume data s w).2
       `sublist_of` connected_websockets w) ∧
  (∀ fuel ws,
     connected_websockets (keep_alive fuel ws w).2
       `sublist_of` connected_websockets w) ∧
  (∀ fuel ws,
     connected_websockets (websocket_endpoint fuel ws w).2
       `sublist_of` connected_websockets w ++ [ws]) ∧
  (∀ w',
     step w w' →
     NoDup (connected_websockets w) →
     NoDup (connected_websockets w') ∨
     ∃ fuel ws,
       w' = (websocket_endpoint fuel ws w).2 ∧ ws ∈ connected_websockets w).
Proof.
  split_and!.
  - intros addr. apply connect_endpoint_registry.
  - apply shutdown_event_registry.
  - intros heard. apply scan_devices_registry.
  - intros addr. apply connect_ble_begin_registry.
  - intros addr p. apply connect_ble_resume_registry.
  - intros data. apply notify_data_adds_no_subscriber.
  - intros data. apply notify_data_begin_registry.
  - intros data s. apply notify_data_resume_registry.
  - intros fuel ws. apply keep_alive_tidy.
  - intros fuel ws. apply websocket_endpoint_registry.
  - intros w' Hstep Hnodup.
    assert (∀ v, connected_websockets v `sublist_of` connected_websockets w →
                 NoDup (connected_websockets v)) as Hsub
      by (intros v Hv; by eapply sublist_NoDup).
    destruct Hstep as [addr w|w|data w|heard w|fuel ws w|fuel ws w|c w].
    + left. apply Hsub, connect_endpoint_tidy.
    + left. apply Hsub, shutdown_event_tidy.
    + left. apply Hsub, notify_data_adds_no_subscriber.
    + left. apply Hsub, scan_devices_tidy.
    + destruct (decide (ws ∈ connected_websockets w)) as [Hin|Hfresh];
        [right; by exists fuel, ws|left].
      pose proof (websocket_endpoint_registry fuel ws w) as [_ Hreg].
      eapply sublist_NoDup; [|exact Hreg].
      apply NoDup_app. split_and!; [done| |apply NoDup_singleton].
      intros x Hx ->%list_elem_of_singleton. done.
    + left. apply Hsub, keep_alive_tidy.
    + left. by apply Hsub.
Qed.

(** X13. A cached record is never dropped: once a notification has been
    decoded, every later world has a record in its cache, through
    connects, failed connects, lost links, scans and the shutdown. *)
Theorem cache_is_never_cleared w w' :
  rtc step w w' →
  is_Some (current_data w) →
  is_Some (current_data w').
Proof.
  induction 1 as [|w1 w2 w3 Hstep _ IH]; [done|].
  intros Hsome. apply IH. clear IH.
  destruct Hstep as [addr w|w|data w|heard w|fuel ws w|fuel ws w|c w].
  - by destruct (connect_endpoint_tidy addr w) as [-> _].
  - by destruct (shutdown_event_tidy w) as [-> _].
  - rewrite notify_data_current_data. by destruct (decoded data).
  - by destruct (scan_devices_tidy heard w) as [-> _].
  - by destruct (websocket_endpoint_registry fuel ws w) as [-> _].
  - by destruct (keep_alive_tidy fuel ws w) as [-> _].
  - done.
Qed.

(** ** More on the scanner and the link *)

(** X14. A scan starts from an empty list: what [discovered_devices] held
    before has no part in what a scan that is not refused does. *)
Theorem scan_starts_from_empty_list heard earlier w :
  scanning w = false →
  scan_devices heard (set_discovered_devices earlier w) = scan_devices heard w.
Proof.
  intros Hidle.
  rewrite (scan_devices_cases heard w Hidle).
  by rewrite (scan_devices_cases heard (set_discovered_devices earlier w)).
Qed.

(** X15. Where only the held client can have a live subscription and no
    more than one was ever live, a connect served with nothing else in
    between that tears the old link down and then fails to open the new one
    is answered with a failure and leaves no live subscription at all: the
    old link is not kept. *)
Theorem failed_switch_drops_old_link addr w a error :
  link_invariant w →
  ble_client w = Some a →
  link_is_up a w = true →
  oracle (tick w) = Ok →
  oracle (S (tick w)) = Ok →
  (connect_endpoint addr w).1 = Val (Failure error) →
  nobody_live (transport_of (trace (connect_endpoint addr w).2)) ∧
  ∃ old, transport_of (trace (connect_endpoint addr w).2) !! a = Some old ∧
         is_connected old = false.
Proof.
  intros [Halw Hheld'] Hheld Hup Hstop Hdisc.
  unfold link_invariant in Halw, Hheld'. rewrite Hheld in Hheld'.
  pose proof (held_inv_torn_down a (trace w) (conj Halw Hheld')) as Hidle.
  set (torn := EvDisconnect a Ok :: EvStopNotify a Ok :: trace w) in *.
  assert (∀ o, idle_inv (EvConnect (length (transport_of torn)) o
                         :: EvNewClient addr 20 :: torn)) as Hconnect
    by (intros o; by apply idle_inv_connect).
  assert (∃ cl, transport_of (trace w) !! a = Some cl) as [cl Ha].
  { unfold link_is_up in Hup. destruct (transport_of (trace w) !! a); [|done].
    by eexists. }
  assert (a < length (transport_of (trace w))) as Hlt
    by by eapply lookup_lt_Some.
  assert (length (transport_of torn) = length (transport_of (trace w))) as Hlen
    by (subst torn; cbn; by rewrite !length_alter).
  assert (transport_of (EvNewClient addr 20 :: torn) !! a =
          Some (link_down (set_notifying false cl))) as Hbase.
  { change (transport_of (EvNewClient addr 20 :: torn))
      with (alter link_down a
              (alter (set_notifying false) a (transport_of (trace w)))
            ++ [{| address := addr; timeout := 20;
                   is_connected := false; notifying := false |}]).
    rewrite lookup_app_l by (by rewrite !length_alter).
    by rewrite !list_lookup_alter_eq, Ha. }
  rewrite connect_endpoint_spec, connect_ble_split. unfold bind.
  rewrite teardown_spec, Hheld, Hup, Hstop, Hdisc, open_link_spec.
  unfold after_call. world_simpl. fold torn.
  destruct (oracle (S (S (tick w)))) as [|e].
  - destruct (oracle (S (S (S (tick w))))) as [|e]; [done|].
    destruct (is_Exception e); [|done]. intros _. world_simpl. split.
    + by destruct (idle_inv_shrinking
                     (EvStartNotify (length (transport_of torn)) (Raise e))
                     _ eq_refl (Hconnect Ok)).
    + change (transport_of (EvStartNotify ?c (Raise e) :: EvConnect ?c Ok :: ?tr))
        with (alter (set_is_connected true) c (transport_of tr)).
      rewrite list_lookup_alter_ne by lia. rewrite Hbase. by eexists.
  - destruct (is_Exception e); [|done]. intros _. world_simpl. split.
    + by destruct (Hconnect (Raise e)).
    + change (transport_of (EvConnect ?c (Raise e) :: ?tr))
        with (transport_of tr).
      rewrite Hbase. by eexists.
Qed.

End Webserver.

(** * The theorems at sample inputs, and what the code does where a claim
    of the specification does not hold *)

(** The sample worlds are worlds the handlers produce. *)
Lemma connected_world_reached :
  connect_endpoint all_ok "AA:AA" initial_world =
    (Val (ConnectSuccess "AA:AA"), connected_world).
Proof. reflexivity. Qed.

Lemma pruned_world_reached :
  (notify_data closing_session sample_envelope sample_packet [x02; x64]
     (websocket_endpoint closing_session 0 7 initial_world).2).2 = pruned_world.
Proof. reflexivity. Qed.



(** C2: the claim fails.  Two connects arrive while the link to ["AA:AA"]
    is up, and both find the old client connected.  The second is served
    to its end while the first waits in [disconnect]; then the first goes
    on, makes its own client and subscribes it.  Both are answered with
    success, and two clients are connected and notifying. *)
Lemma overlapping_connects_leave_two_subscriptions :
  let served := overlapped all_ok two_connects connected_world in
  map stands served.1 = [inr (Val true); inr (Val true)] ∧
  live_subscriptions (transport_of (trace served.2)) =
    [{| address := "CC:CC"; timeout := 20;
        is_connected := true; notifying := true |};
     {| address := "BB:BB"; timeout := 20;
        is_connected := true; notifying := true |}] ∧
  ¬ at_most_one_live (transport_of (trace served.2)) ∧
  ¬ always at_most_one_live (trace served.2).
Proof.
  assert (¬ at_most_one_live
            (transport_of
               (trace (overlapped all_ok two_connects connected_world).2)))
    as Hnot.
  { unfold at_most_one_live. vm_compute. lia. }
  split_and!; [reflexivity|reflexivity|exact Hnot|].
  intros Halways. apply Hnot, Halways. reflexivity.
Qed.

(** Two viewers; the peer of the first goes away while the broadcast waits
    in the send to it: the callback raises and the second viewer is sent
    nothing. *)
Lemma broadcast_aborted_by_ended_session_witness :
  let waiting :=
    {| send_to := 7; sent := Some (sample_record 100); still_to_send := [8] |} in
  let begun :=
    notify_data_begin sample_envelope sample_packet [x02; x64] two_viewers in
  let ended := keep_alive peer_goes_away 1 7 begun.2 in
  let resumed := notify_data_resume peer_goes_away [x02; x64] waiting ended.2 in
  begun.1 = inl waiting ∧
  ended.1 = Val tt ∧
  resumed.1 = inr (Exn (PyException "list.remove(x): x not in list")) ∧
  connected_websockets resumed.2 = [8] ∧
  sends_to 8 (trace resumed.2) = [].
Proof.
  destruct (broadcast_aborted_by_ended_session peer_goes_away
              sample_envelope sample_packet [x02; x64] (sample_record 100)
              7 [8] two_viewers (PyException "send on a closed websocket"))
    as (Hbegun & Hended & Hraised & Hregistry & _ & Hsends).
  - reflexivity.
  - reflexivity.
  - by intros ?%list_elem_of_singleton.
  - reflexivity.
  - reflexivity.
  - split_and!; [exact Hbegun|exact Hended|exact Hraised|exact Hregistry|].
    rewrite Hsends by left. reflexivity.
Defined.

(** A connect to ["BB:BB"] while the client of ["AA:AA"] is connected; the
    two connects of [two_connects], served one after the other. *)
Lemma one_live_subscription_witness :
  always at_most_one_live
    (trace (connect_endpoint all_ok "BB:BB" connected_world).2) ∧
  always at_most_one_live
    (trace (overlapped all_ok (one_after_another ["BB:BB"; "CC:CC"])
              connected_world).2) ∧
  ∃ opening,
    trace (connect_ble all_ok "BB:BB" connected_world).2 =
      opening ++ [EvNewClient "BB:BB" 20; EvDisconnect 0 Ok; EvStopNotify 0 Ok]
              ++ trace connected_world.
Proof.
  pose proof (one_live_subscription all_ok sample_envelope sample_packet)
    as (Halways & Hturns & _ & Hconnect).
  split_and!.
  - apply Halways. eapply rtc_l; [apply (step_connect _ _ _ "AA:AA")|].
    apply rtc_once. apply (step_connect _ _ _ "BB:BB").
  - apply Hturns. apply rtc_once.
    exact (step_connect all_ok sample_envelope sample_packet "AA:AA"
             initial_world).
  - destruct (Hconnect "BB:BB" connected_world 0 eq_refl eq_refl)
      as [[e He]|[[e He]|(opening & Htr & _)]].
    + discriminate He.
    + discriminate He.
    + by exists opening.
Defined.


(** A notification with battery level 100. *)
Lemma cached_record_is_last_decoded_witness :
  current_data
    (notify_data all_ok sample_envelope sample_packet [x02; x64]
       three_viewers).2 = Some (sample_record 100).
Proof.
  apply (proj2 (proj2 (cached_record_is_last_decoded
                         all_ok sample_envelope sample_packet))
           [x02; x64] [x64]
           {| battery := 100; ambient_a := 20; ambient_b := 21;
              probe_p1 := 22; probe_p2 := 0;
              probe_p1_connected := true; probe_p2_connected := false;
              eco_mode := false; temperature_unit := {| value := "F" |} |}
           three_viewers).
  - reflexivity.
  - reflexivity.
Defined.

(** A notification with the wrong envelope, while connected. *)
Lemma decode_error_is_absorbed_witness :
  notify_data all_ok sample_envelope sample_packet [x01; xab] connected_world =
    (Val tt,
     set_stdout ["Failed to decode: 01ab with error unexpected envelope"]
       connected_world).
Proof.
  apply (decode_error_is_absorbed all_ok sample_envelope sample_packet
           [x01; xab] "unexpected envelope" connected_world).
  reflexivity.
Defined.



(** One hub heard twice: the entry carries the first signal strength. *)
Lemma scan_first_seen_wins_witness :
  scan_devices all_ok hub_heard_twice initial_world =
    (Val (ScanSuccess [{| e_address := "AA:AA"; e_name := "Ooni_DT_Hub";
                          e_rssi := -70 |}]),
     (scan_devices all_ok hub_heard_twice initial_world).2).
Proof.
  destruct (scan_first_seen_wins all_ok hub_heard_twice initial_world []
              ({| dev_address := "AA:AA"; dev_name := Some "Ooni_DT_Hub" |},
               {| rssi := -70 |})
              [({| dev_address := "AA:AA"; dev_name := Some "Ooni_DT_Hub" |},
                {| rssi := -40 |})])
    as (devices & w' & Hrun & _ & Hfirst).
  - reflexivity.
  - reflexivity.
  - reflexivity.
  - reflexivity.
  - reflexivity.
  - reflexivity.
  - intros ad' Hin. by apply elem_of_nil in Hin.
  - reflexivity.
Defined.

(** C9: the claim fails.  A scan asked to last ten seconds closes its
    session after five. *)
Lemma scan_ignores_requested_duration :
  ¬ scan_window 10 initial_world (RequestScan all_ok 10 [] initial_world).2 ∧
  scan_window 5 initial_world (RequestScan all_ok 10 [] initial_world).2.
Proof. split; [|reflexivity]. unfold scan_window. cbn. discriminate. Qed.

(** A scan asked to last ten seconds. *)
Lemma scan_window_is_five_seconds_witness :
  ∃ devices w',
    RequestScan all_ok 10 hub_heard_twice initial_world =
      (Val (ScanSuccess devices), w') ∧
    scan_window 5 initial_world w' ∧
    discovered_devices w' = devices ∧
    ∃ e, e ∈ devices ∧ e_address e = "AA:AA".
Proof.
  destruct (scan_window_is_five_seconds all_ok 10 hub_heard_twice initial_world)
    as (devices & w' & Hrun & Hwindow & _ & Hlist & Hheard & _);
    [reflexivity..|].
  exists devices, w'. repeat split; [done..|].
  apply (Hheard ({| dev_address := "AA:AA"; dev_name := Some "Ooni_DT_Hub" |},
                 {| rssi := -40 |})); [|reflexivity].
  right. left.
Defined.

(** The session of websocket 7 ends after a broadcast has pruned it. *)
Lemma session_end_discards_subscriber_witness :
  keep_alive closing_session 3 7 pruned_world =
    (Val tt, (keep_alive closing_session 3 7 pruned_world).2) ∧
  connected_websockets (keep_alive closing_session 3 7 pruned_world).2 = [].
Proof.
  destruct (session_end_discards_subscriber closing_session 3 7 0
              WebSocketDisconnect pruned_world)
    as (w' & Hrun & _ & Hpruned & _).
  - lia.
  - intros i Hi. lia.
  - reflexivity.
  - reflexivity.
  - rewrite Hrun. split; [done|]. cbn. apply Hpruned. apply not_elem_of_nil.
Defined.

(** * The further properties at sample inputs *)

Lemma connected_world_reachable :
  rtc (step all_ok sample_envelope sample_packet) initial_world connected_world.
Proof.
  apply rtc_once.
  exact (step_connect all_ok sample_envelope sample_packet "AA:AA" initial_world).
Qed.

(** A scan cancelled while it sleeps (call 1). *)
Lemma scan_devices_releases_flag_witness :
  scanning (scan_devices all_ok hub_heard_twice initial_world).2 = false ∧
  scanning (scan_devices (fails_at 1 (PyBaseException "cancelled"))
              hub_heard_twice initial_world).2 = true.
Proof.
  split.
  - exact (scan_devices_releases_flag all_ok hub_heard_twice initial_world
             eq_refl).
  - exact (proj2 (scan_devices_releases_flag
                    (fails_at 1 (PyBaseException "cancelled"))
                    hub_heard_twice initial_world eq_refl)).
Defined.

Lemma unanswered_scan_blocks_later_scans_witness :
  (scan_devices (fails_at 1 (PyBaseException "cancelled")) hub_heard_twice
     (scan_devices (fails_at 1 (PyBaseException "cancelled")) hub_heard_twice
        initial_world).2).1 = Val (Failure "Scan already in progress").
Proof.
  rewrite (unanswered_scan_blocks_later_scans
             (fails_at 1 (PyBaseException "cancelled"))
             hub_heard_twice hub_heard_twice initial_world
             (PyBaseException "cancelled")).
  - reflexivity.
  - reflexivity.
  - reflexivity.
Defined.

(** A shutdown while connected to ["AA:AA"]. *)
Lemma shutdown_leaves_no_subscription_witness :
  nobody_live (transport_of (trace (shutdown_event all_ok connected_world).2)).
Proof.
  apply (shutdown_leaves_no_subscription all_ok connected_world).
  - exact (reachable_link_invariant _ _ _ _ connected_world_reachable).
  - reflexivity.
Defined.

(** A second connect, to ["BB:BB"]. *)
Lemma successful_connect_is_live_witness :
  ∃ c,
    ble_client (connect_endpoint all_ok "BB:BB" connected_world).2 = Some c ∧
    transport_of (trace (connect_endpoint all_ok "BB:BB" connected_world).2) !! c =
      Some {| address := "BB:BB"; timeout := 20;
              is_connected := true; notifying := true |}.
Proof.
  destruct (successful_connect_is_live all_ok "BB:BB" connected_world
              (connect_endpoint all_ok "BB:BB" connected_world).2)
    as (c & Hheld & Hclient & _).
  - exact (reachable_link_invariant _ _ _ _ connected_world_reachable).
  - reflexivity.
  - by exists c.
Defined.

(** The link to ["AA:AA"] is lost, then a connect to ["BB:BB"] comes. *)
Lemma reconnect_after_lost_link_witness :
  ∃ opening,
    trace (connect_ble all_ok "BB:BB"
             (set_trace (EvLinkLost 0 :: trace connected_world) connected_world)).2 =
      opening ++ EvNewClient "BB:BB" 20 :: EvLinkLost 0 :: trace connected_world.
Proof.
  destruct (reconnect_after_lost_link all_ok "BB:BB" connected_world 0 eq_refl)
    as (opening & Htr & _).
  by exists opening.
Defined.

(** A switch from ["AA:AA"] to ["BB:BB"] whose [connect] (call 4) times
    out. *)
Lemma failed_switch_drops_old_link_witness :
  nobody_live
    (transport_of
       (trace (connect_endpoint (fails_at 4 (PyException "timeout")) "BB:BB"
                 connected_world).2)).
Proof.
  apply (failed_switch_drops_old_link (fails_at 4 (PyException "timeout"))
           "BB:BB" connected_world 0 "timeout").
  - apply (reachable_link_invariant (fails_at 4 (PyException "timeout"))
             sample_envelope sample_packet).
    apply rtc_once.
    exact (step_connect (fails_at 4 (PyException "timeout"))
             sample_envelope sample_packet "AA:AA" initial_world).
  - reflexivity.
  - reflexivity.
  - reflexivity.
  - reflexivity.
  - reflexivity.
Defined.

(** A packet decoder that raises an [IndexError]. *)
Lemma other_decoder_exception_propagates_witness :
  notify_data all_ok sample_envelope broken_packet [x02; x64] three_viewers =
    (Exn (PyException "index out of range"), three_viewers).
Proof.
  apply (other_decoder_exception_propagates all_ok sample_envelope broken_packet
           [x02; x64] (PyException "index out of range") three_viewers).
  - reflexivity.
  - intros msg. discriminate.
Defined.

(** Three viewers, the second one's websocket closed: three sends. *)
Lemma broadcast_in_registration_order_witness :
  trace (notify_data_run (fails_at 1 (PyException "send on a closed websocket"))
           3 [x02; x64]
           (notify_data_begin sample_envelope sample_packet [x02; x64]
              three_viewers)).2 =
    [EvSendJson 9 (Some (sample_record 100)) Ok;
     EvSendJson 8 (Some (sample_record 100))
       (Raise (PyException "send on a closed websocket"));
     EvSendJson 7 (Some (sample_record 100)) Ok].
Proof.
  exact (broadcast_in_registration_order
           (fails_at 1 (PyException "send on a closed websocket"))
           sample_envelope sample_packet [x02; x64] (sample_record 100)
           three_viewers eq_refl).
Defined.

(** Three viewers, the second one's websocket closed. *)
Lemma broadcast_prunes_failed_subscriber_witness :
  let second_closed := fails_at 1 (PyException "send on a closed websocket") in
  let run :=
    notify_data_run second_closed 3 [x02; x64]
      (notify_data_begin sample_envelope sample_packet [x02; x64]
         three_viewers) in
  run.1 = Val tt ∧
  connected_websockets run.2 `sublist_of` [7; 8; 9].
Proof.
  intros second_closed run.
  destruct (broadcast_prunes_failed_subscriber second_closed
              sample_envelope sample_packet [x02; x64] (sample_record 100)
              three_viewers)
    as (Hval & Hregistry).
  - reflexivity.
  - split; [exact Hval|].
    apply Hregistry. cbn.
    repeat (apply NoDup_cons; split); [| |by intros ?%elem_of_nil|constructor];
      intros Hin; repeat (apply elem_of_cons in Hin as [?|Hin]; [done|]);
      by apply elem_of_nil in Hin.
Defined.

Lemma broadcast_prunes_second_viewer :
  connected_websockets
    (notify_data (fails_at 1 (PyException "send on a closed websocket"))
       sample_envelope sample_packet [x02; x64] three_viewers).2 = [7; 9].
Proof. reflexivity. Qed.


(** The session of websocket 8 is cancelled after one text. *)
Lemma cancelled_session_stays_registered_witness :
  ∃ w',
    keep_alive (fails_at 1 (PyBaseException "cancelled")) 2 8 three_viewers =
      (Exn (PyBaseException "cancelled"), w') ∧
    connected_websockets w' = [7; 8; 9].
Proof.
  destruct (cancelled_session_stays_registered
              (fails_at 1 (PyBaseException "cancelled")) 2 8 1 "cancelled"
              three_viewers)
    as (w' & Hrun & Hreg & _).
  - lia.
  - intros i Hi. by replace i with 0 by lia.
  - reflexivity.
  - by exists w'.
Defined.

(** The first viewer attaches. *)
Lemma registry_stays_distinct_witness :
  NoDup (connected_websockets (websocket_endpoint all_ok 0 7 initial_world).2).
Proof.
  pose proof (registry_stays_distinct all_ok sample_envelope sample_packet
                initial_world)
    as (_ & _ & _ & _ & _ & _ & _ & _ & _ & _ & Hstep).
  destruct (Hstep (websocket_endpoint all_ok 0 7 initial_world).2)
    as [Hnodup|(fuel & ws & _ & Hin)].
  - apply step_websocket.
  - constructor.
  - exact Hnodup.
  - by apply elem_of_nil in Hin.
Defined.

(** A record is cached, then the device is switched and the server shut
    down. *)
Lemma cache_is_never_cleared_witness :
  is_Some
    (current_data
       (shutdown_event all_ok
          (connect_endpoint all_ok "BB:BB"
             (notify_data all_ok sample_envelope sample_packet [x02; x64]
                connected_world).2).2).2).
Proof.
  apply (cache_is_never_cleared all_ok sample_envelope sample_packet
           (notify_data all_ok sample_envelope sample_packet [x02; x64]
              connected_world).2).
  - eapply rtc_l; [apply (step_connect _ _ _ "BB:BB")|].
    apply rtc_once. apply step_shutdown.
  - by eexists.
Defined.

(** What an earlier scan found is not in the answer of the next one. *)
Lemma scan_starts_from_empty_list_witness :
  scan_devices all_ok []
    (set_discovered_devices
       [{| e_address := "AA:AA"; e_name := "Ooni_DT_Hub"; e_rssi := -70 |}]
       initial_world) =
  scan_devices all_ok [] initial_world.
Proof.
  apply (scan_starts_from_empty_list all_ok). reflexivity.
Defined.
